(** * Transakce: a transactional column store (transakce.py)

    Shallow embedding of the classes [Column] and [Database] of
    [transakce.py] and the properties of their operations.

    Python objects are mutable; every method is embedded as a computation
    over the state of [self] that either returns or raises, and the state
    reached at the moment an exception is raised is kept, since earlier
    statements of the method have already taken effect. *)

From stdpp Require Import base option list gmap strings pretty.
From Stdlib Require Import ZArith QArith Lia.

Local Open Scope string_scope.
Local Open Scope Z_scope.
Local Open Scope list_scope.

(** ** Exceptions and the state/exception monad *)

(** A Python value used as a key (the payload of [KeyError]). *)
Inductive pykey :=
| KInt (z : Z)
| KStr (s : string).

(** The exceptions the code can raise: [OverwriteNotAllowed] is the class of
    the source, the others are the builtin ones raised by [d[k]], [d.pop(k)]
    and by attribute access, and the one pandas raises on an argument it
    cannot build a table from. *)
Inductive exn :=
| OverwriteNotAllowed (msg : string)
| KeyError (key : pykey)
| AttributeError (attribute : string)
| ValueError.

(** A method body on a [self] of type [S]: the outcome and the state left. *)
Definition M (S A : Type) : Type := S → (exn + A) * S.

Definition ret {S A} (a : A) : M S A := λ s, (inr a, s).
Definition raise {S A} (e : exn) : M S A := λ s, (inl e, s).
Definition bind {S A B} (m : M S A) (k : A → M S B) : M S B :=
  λ s, match m s with
       | (inr a, s') => k a s'
       | (inl e, s') => (inl e, s')
       end.
Definition get {S} : M S S := λ s, (inr s, s).
Definition put {S} (s : S) : M S unit := λ _, (inr tt, s).
Definition modify {S} (f : S → S) : M S unit := λ s, (inr tt, f s).

Declare Scope py_scope.
Delimit Scope py_scope with py.
Notation "x <- m ;; k" := (bind m (λ x, k))
  (at level 20, m at level 99, k at level 200, only parsing) : py_scope.
Notation "m ;; k" := (bind m (λ _, k))
  (at level 100, k at level 200, right associativity, only parsing) : py_scope.
Local Open Scope py_scope.

(** [for x in l: body]: the loop stops at the first iteration that raises. *)
Fixpoint for_each {S A} (l : list A) (body : A → M S unit) : M S unit :=
  match l with
  | [] => ret tt
  | x :: l' => body x ;; for_each l' body
  end.

(** The state a computation leaves, whether it returned or raised. *)
Definition exec {S A} (m : M S A) (s : S) : S := (m s).2.
(** Whether the computation returned. *)
Definition returns {S A} (m : M S A) (s : S) : bool :=
  match (m s).1 with inr _ => true | inl _ => false end.

(** ** Python dictionaries

    The dictionaries held by an object ([_vals], [trans_dict]) are finite
    maps with integer keys.  A dictionary passed as an argument is given by
    its items in iteration order, which decides which key an error names. *)

Definition items := list (Z * Z).

(** [key in d.keys()] *)
Definition has_key {K V} `{Countable K} (key : K) (d : gmap K V) : bool :=
  bool_decide (is_Some (d !! key)).

(** [d.update(values)] for an argument dictionary: later items win. *)
Definition update_items (d : gmap Z Z) (values : items) : gmap Z Z :=
  foldl (λ acc kv, <[kv.1 := kv.2]> acc) d values.

(** [d.update(other)] for a dictionary of the object: [other] wins. *)
Definition update (d other : gmap Z Z) : gmap Z Z := other ∪ d.

(** [d.pop(key)]: removes the key, [KeyError] when it is absent. *)
Definition pop (key : Z) (d : gmap Z Z) : exn + gmap Z Z :=
  if has_key key d then inr (base.delete key d) else inl (KeyError (KInt key)).

(** [pd.DataFrame(...).mean()[0]]: the arithmetic mean of the values of the
    single column, exact; [None] is the undefined result on no values. *)
Definition pd_mean (values : list Z) : option Q :=
  match values with
  | [] => None
  | _ => Some (Qred (inject_Z (foldr Z.add 0 values) / inject_Z (Z.of_nat (length values))))
  end.

(** ** class Column *)

Module Column.

Record t := mk {
  name : string;
  _vals : gmap Z Z;
  transaction_marker : bool;
  trans_dict : gmap Z Z;
  to_del : list Z
}.

Definition set_vals (v : gmap Z Z) (self : t) : t :=
  mk (name self) v (transaction_marker self) (trans_dict self) (to_del self).
Definition set_transaction_marker (b : bool) (self : t) : t :=
  mk (name self) (_vals self) b (trans_dict self) (to_del self).
Definition set_trans_dict (d : gmap Z Z) (self : t) : t :=
  mk (name self) (_vals self) (transaction_marker self) d (to_del self).
Definition set_to_del (l : list Z) (self : t) : t :=
  mk (name self) (_vals self) (transaction_marker self) (trans_dict self) l.

Definition __init__ (name : string) : t := mk name ∅ false ∅ [].

(** ['Overwrite not allowed. Key = ' + str(key) + ' already assigned.'] *)
Definition overwrite_msg (key : Z) : string :=
  "Overwrite not allowed. Key = " +:+ pretty key +:+ " already assigned.".

Definition __getitem__ (key : Z) : M t Z :=
  self <- get ;;
  match _vals self !! key with
  | Some v => ret v
  | None => raise (KeyError (KInt key))
  end.

Definition insert (values : items) : M t unit :=
  for_each values.*1 (λ key,
    self <- get ;;
    if has_key key (_vals self)
    then raise (OverwriteNotAllowed (overwrite_msg key))
    else ret tt) ;;
  self <- get ;;
  if transaction_marker self
  then put (set_trans_dict (update_items (trans_dict self) values) self)
  else put (set_vals (update_items (_vals self) values) self).

(** [self.d.pop(key)] on one of the dictionaries of the object. *)
Definition pop_from (field : t → gmap Z Z) (set_field : gmap Z Z → t → t)
    (key : Z) : M t unit :=
  self <- get ;;
  match pop key (field self) with
  | inr d => put (set_field d self)
  | inl e => raise e
  end.

Definition delete (keys : list Z) : M t unit :=
  self <- get ;;
  if transaction_marker self
  then for_each keys (λ key,
         self <- get ;;
         if has_key key (trans_dict self)
         then pop_from trans_dict set_trans_dict key
         else if has_key key (_vals self)
         then put (set_to_del (to_del self ++ [key]) self)
         else ret tt)
  else for_each keys (λ key,
         self <- get ;;
         if has_key key (_vals self)
         then pop_from _vals set_vals key
         else ret tt).

Definition mean : M t (option Q) :=
  self <- get ;;
  ret (pd_mean (map_to_list (_vals self)).*2).

Definition transaction : M t unit :=
  modify (set_transaction_marker true).

Definition rollback : M t unit :=
  modify (set_trans_dict ∅) ;;
  modify (set_to_del []) ;;
  modify (set_transaction_marker false).

Definition commit : M t unit :=
  self <- get ;;
  put (set_vals (update (_vals self) (trans_dict self)) self) ;;
  self <- get ;;
  for_each (to_del self) (λ key, pop_from _vals set_vals key) ;;
  modify (set_trans_dict ∅) ;;
  modify (set_to_del []) ;;
  modify (set_transaction_marker false).

(** A call of a public method, as a client of the object issues it; the
    value returned, if any, is dropped. *)
Inductive op :=
| Insert (values : items)
| Delete (keys : list Z)
| Mean
| Getitem (key : Z)
| Transaction
| Rollback
| Commit.

Definition call (o : op) : M t unit :=
  match o with
  | Insert values => insert values
  | Delete keys => delete keys
  | Mean => _ <- mean ;; ret tt
  | Getitem key => _ <- __getitem__ key ;; ret tt
  | Transaction => transaction
  | Rollback => rollback
  | Commit => commit
  end.

(** A client session: the calls are issued one after the other, and a call
    that raises leaves the object as it was when the exception left it. *)
Definition run (ops : list op) (self : t) : t :=
  foldl (λ c o, exec (call o) c) self ops.

(** The calls that only stage or read: every call but [commit] and
    [rollback]. *)
Definition staging (o : op) : bool :=
  match o with
  | Rollback | Commit => false
  | _ => true
  end.

(** The calls the transaction scenarios speak of: inserts and deletes. *)
Definition insert_or_delete (o : op) : bool :=
  match o with
  | Insert _ | Delete _ => true
  | _ => false
  end.

(** The staging buffers are empty whenever no transaction is open. *)
Definition staged_empty (self : t) : Prop :=
  transaction_marker self = false → trans_dict self = ∅ ∧ to_del self = [].

End Column.

(** The column of the walkthrough under [__main__], after its first insert. *)
Definition demo : Column.t :=
  Column.run [Column.Insert [(10, 10); (20, 11); (30, 9)]]
             (Column.__init__ "temperature").

(** The same column inside its second transaction, with the two inserts of
    the walkthrough staged. *)
Definition staged : Column.t :=
  Column.run [Column.Transaction; Column.Insert [(40, 19); (50, 21)]] demo.

(** ** The loops of [delete] and [commit] as functions

    The effect of one iteration of each loop, used to state what the loops
    compute. *)

(** What one iteration of the loop of [delete] does inside a transaction. *)
Definition stage_delete (c : Column.t) (key : Z) : Column.t :=
  if has_key key (Column.trans_dict c)
  then Column.set_trans_dict (base.delete key (Column.trans_dict c)) c
  else if has_key key (Column._vals c)
  then Column.set_to_del (Column.to_del c ++ [key]) c
  else c.

(** What one iteration does outside a transaction. *)
Definition direct_delete (c : Column.t) (key : Z) : Column.t :=
  if has_key key (Column._vals c)
  then Column.set_vals (base.delete key (Column._vals c)) c
  else c.

(** The loop of [commit] on the dictionary alone: the unguarded [pop]s, in
    the order of the list, up to the first one that raises. *)
Fixpoint pop_keys (keys : list Z) (d : gmap Z Z) : (exn + unit) * gmap Z Z :=
  match keys with
  | [] => (inr tt, d)
  | key :: keys' =>
      match pop key d with
      | inr d' => pop_keys keys' d'
      | inl e => (inl e, d)
      end
  end.

(** ** class Database

    [Database.__init__] stores its own two attributes and one [Column] per
    table name in the same namespace, [self.__dict__]; the embedding keeps
    that dictionary as it is. *)

Module Database.

(** What an entry of [self.__dict__] holds.  [_vars] maps a column name to
    the [_vals] dictionary object of a column, not to a copy of it: the entry
    records which attribute holds that column. *)
Inductive attr :=
| Vars (d : gmap string string)
| Tables (l : list string)
| Col (c : Column.t).

Abbreviation t := (gmap string attr).

Definition __init__ (tables : list string) : t :=
  foldl (λ self a, <[a := Col (Column.__init__ a)]> self)
        (<["tables" := Tables tables]> (<["_vars" := Vars ∅]> ∅))
        tables.

(** [self.<name>] for a name the classes do not define. *)
Definition getattr (name : string) : M t attr :=
  self <- get ;;
  match self !! name with
  | Some a => ret a
  | None => raise (AttributeError name)
  end.

(** [self.__dict__[name]], the way the code reaches a column by its name
    (attribute access [db.<name>] reads the same dictionary before it turns
    to the classes). *)
Definition lookup (name : string) : M t attr :=
  self <- get ;;
  match self !! name with
  | Some a => ret a
  | None => raise (KeyError (KStr name))
  end.

(** [self._vars.update({var: self.__dict__[var]._vals})] *)
Definition update_vars (var : string) : M t unit :=
  vars <- getattr "_vars" ;;
  match vars with
  | Vars d =>
      col <- lookup var ;;
      match col with
      | Col _ => modify (λ self, <["_vars" := Vars (<[var := var]> d)]> self)
      | _ => raise (AttributeError "_vals")
      end
  | _ => raise (AttributeError "update")
  end.

(** The argument handed to [pd.DataFrame]: every entry of [_vars] read
    through to the dictionary it refers to. *)
Abbreviation DataFrame := (gmap string (gmap Z Z)).

Definition deref (self : t) (column : string) : option (gmap Z Z) :=
  match self !! column with
  | Some (Col c) => Some (Column._vals c)
  | _ => None
  end.

(** [__str__]; the result is the table handed to pandas, whose formatting is
    not part of the program.  When a column is itself named [tables], the
    loop iterates over that [Column] object through its [__getitem__],
    starting at index 0, and the integer it yields is no key of
    [self.__dict__]. *)
Definition __str__ : M t DataFrame :=
  tables <- getattr "tables" ;;
  match tables with
  | Tables l => for_each l update_vars
  | Vars d => for_each (map_to_list d).*1 update_vars
  | Col c =>
      match Column._vals c !! 0 with
      | None => raise (KeyError (KInt 0))
      | Some v =>
          vars <- getattr "_vars" ;;
          match vars with
          | Vars _ => raise (KeyError (KInt v))
          | _ => raise (AttributeError "update")
          end
      end
  end ;;
  vars <- getattr "_vars" ;;
  match vars with
  | Vars d => self <- get ;; ret (omap (deref self) d)
  | _ => raise ValueError
  end.

(** What a client does with a database: a method call on one of its columns
    ([db.<a>.<method>(...)]), or printing it. *)
Inductive op :=
| OnColumn (a : string) (o : Column.op)
| Render.

Definition step (self : t) (o : op) : t :=
  match o with
  | OnColumn a o =>
      match self !! a with
      | Some (Col c) => <[a := Col (exec (Column.call o) c)]> self
      | _ => self
      end
  | Render => exec __str__ self
  end.

Definition run (ops : list op) (self : t) : t := foldl step self ops.

(** [_vars] after the loop of [__str__] over the names [l]. *)
Definition refreshed (d : gmap string string) (l : list string) :
    gmap string string :=
  foldl (λ acc var, <[var := var]> acc) d l.

(** The layout of [self.__dict__] of a database built for [tables]: a
    column under each table name and, under the two names [__init__] uses
    for itself, the name list and the [_vars] dictionary unless a column
    took the name. *)
Record shape (tables : list string) (self : t) : Prop := mk_shape {
  shape_col : ∀ a, a ∈ tables →
    ∃ c, self !! a = Some (Col c) ∧ Column.name c = a;
  shape_tables : "tables" ∉ tables → self !! "tables" = Some (Tables tables);
  shape_vars : "_vars" ∉ tables →
    ∃ d, self !! "_vars" = Some (Vars d) ∧
         ∀ a b, d !! a = Some b → a = b ∧ a ∈ tables;
  shape_other : ∀ a, a ∉ tables → a ≠ "tables" → a ≠ "_vars" →
    self !! a = None
}.

End Database.

(** ** Attribute access on a Database

    A client reaches a column as [db.<name>].  [Database] extends [Column],
    so besides the entries of [self.__dict__] an attribute access finds the
    names the two class statements bind, and the names the Python runtime
    gives every object.  The runtime's names are parameters of the model:
    [descriptors] are those it resolves on the type before it reads
    [self.__dict__] (data descriptors such as [__class__] and [__dict__]),
    [builtins] the others (the methods of [object], [__doc__],
    [__module__]). *)





(** The database of the walkthrough under [__main__], after its first
    insert. *)
Definition demo_db : Database.t :=
  Database.run
    [Database.OnColumn "temperature"
       (Column.Insert [(10, 10); (20, 11); (30, 9)])]
    (Database.__init__ ["temperature"; "pressure"]).


(** ** Auxiliary notions for sessions *)

(** A staged insert never disagrees with a committed value for the same
    key. *)
Definition staged_agree (c : Column.t) : Prop :=
  ∀ k v w, Column.trans_dict c !! k = Some v → Column._vals c !! k = Some w →
           v = w.

(** A key listed once in [to_del] is committed. *)
Definition staged_present (c : Column.t) : Prop :=
  NoDup (Column.to_del c) →
  ∀ k, k ∈ Column.to_del c → is_Some (Column._vals c !! k).

(** Every call but [rollback]. *)
Definition not_rollback (o : Column.op) : bool :=
  match o with
  | Column.Rollback => false
  | _ => true
  end.

(** The calls of a database session that are addressed to column [b]. *)
Definition calls_on (b : string) (ops : list Database.op) : list Column.op :=
  omap (λ o, match o with
             | Database.OnColumn a o' =>
                 if decide (a = b) then Some o' else None
             | Database.Render => None
             end) ops.

(** * Properties *)

(** ** The monad and the loops *)

Lemma bind_ret_l {S A B} (a : A) (k : A → M S B) s : bind (ret a) k s = k a s.
Proof. reflexivity. Qed.

Lemma bind_get {S B} (k : S → M S B) s : bind get k s = k s s.
Proof. reflexivity. Qed.

Lemma bind_put {S B} (k : unit → M S B) s s' : bind (put s') k s = k tt s'.
Proof. reflexivity. Qed.

Lemma bind_modify {S B} (f : S → S) (k : unit → M S B) s :
  bind (modify f) k s = k tt (f s).
Proof. reflexivity. Qed.

Lemma bind_raise {S A B} (e : exn) (k : A → M S B) s :
  bind (raise e) k s = (inl e, s).
Proof. reflexivity. Qed.

Lemma for_each_cons {S A} (x : A) l (body : A → M S unit) s :
  for_each (x :: l) body s =
  match body x s with
  | (inr _, s') => for_each l body s'
  | (inl e, s') => (inl e, s')
  end.
Proof. reflexivity. Qed.

(** A loop whose body always returns runs to its end: it folds the effect
    of the body over the list. *)
Lemma for_each_fold {S A} (f : S → A → S) (body : A → M S unit) l :
  ∀ s, (∀ x s', body x s' = (inr tt, f s' x)) →
       for_each l body s = (inr tt, foldl f s l).
Proof.
  induction l as [|x l IH]; intros s Hb; [done|].
  rewrite for_each_cons, Hb. simpl. by apply IH.
Qed.

(** ** Dictionaries *)

Lemma has_key_true {K V} `{Countable K} (k : K) (d : gmap K V) :
  has_key k d = true ↔ is_Some (d !! k).
Proof. unfold has_key. by rewrite bool_decide_eq_true. Qed.

Lemma has_key_false {K V} `{Countable K} (k : K) (d : gmap K V) :
  has_key k d = false ↔ d !! k = None.
Proof.
  unfold has_key. rewrite bool_decide_eq_false. by rewrite eq_None_not_Some.
Qed.

Lemma update_items_snoc d values k v :
  update_items d (values ++ [(k, v)]) = <[k := v]> (update_items d values).
Proof. unfold update_items. by rewrite foldl_app. Qed.

Lemma update_items_notin (values : items) : ∀ (d : gmap Z Z) k,
  k ∉ values.*1 → update_items d values !! k = d !! k.
Proof.
  induction values as [|[k' v'] values IH]; intros d k Hk; [done|].
  simpl in *. apply not_elem_of_cons in Hk as [Hne Hk].
  unfold update_items in *. simpl. rewrite IH by done.
  by rewrite lookup_insert_ne.
Qed.

Lemma update_items_in (values : items) : ∀ (d : gmap Z Z) k v,
  NoDup values.*1 → (k, v) ∈ values → update_items d values !! k = Some v.
Proof.
  induction values as [|[k' v'] values IH]; intros d k v Hnd Hin.
  - by apply elem_of_nil in Hin.
  - simpl in Hnd. apply NoDup_cons in Hnd as [Hk' Hnd].
    apply elem_of_cons in Hin as [Heq|Hin].
    + inversion Heq; subst k' v'.
      change (update_items (<[k := v]> d) values !! k = Some v).
      rewrite update_items_notin by done. apply lookup_insert_eq.
    + change (update_items (<[k' := v']> d) values !! k = Some v).
      by apply IH.
Qed.

Lemma update_lookup (d other : gmap Z Z) k :
  update d other !! k =
  match other !! k with Some v => Some v | None => d !! k end.
Proof.
  unfold update. destruct (other !! k) as [v|] eqn:E.
  - by apply lookup_union_Some_l.
  - by rewrite lookup_union_r.
Qed.

(** ** Column.insert *)

(** The validation loop of [insert] reads the state and never writes it: it
    stops at the first key of the batch that is committed. *)
Lemma insert_validation (keys : list Z) (c : Column.t) :
  for_each keys (λ key,
    self <- get ;;
    if has_key key (Column._vals self)
    then raise (OverwriteNotAllowed (Column.overwrite_msg key))
    else ret tt) c =
  match find (λ key, has_key key (Column._vals c)) keys with
  | Some key => (inl (OverwriteNotAllowed (Column.overwrite_msg key)), c)
  | None => (inr tt, c)
  end.
Proof.
  induction keys as [|key keys IH]; [done|].
  rewrite for_each_cons. simpl. unfold bind at 1, get at 1.
  destruct (has_key key (Column._vals c)) eqn:E; [done|].
  unfold ret at 1. exact IH.
Qed.

Lemma insert_eq (values : items) (c : Column.t) :
  Column.insert values c =
  match find (λ key, has_key key (Column._vals c)) values.*1 with
  | Some key => (inl (OverwriteNotAllowed (Column.overwrite_msg key)), c)
  | None =>
      (inr tt,
       if Column.transaction_marker c
       then Column.set_trans_dict (update_items (Column.trans_dict c) values) c
       else Column.set_vals (update_items (Column._vals c) values) c)
  end.
Proof.
  unfold Column.insert, bind at 1. rewrite insert_validation.
  destruct (find _ _); [done|].
  unfold bind, get. by destruct (Column.transaction_marker c).
Qed.

Lemma find_committed_Some (vals : gmap Z Z) (keys : list Z) k :
  find (λ key, has_key key vals) keys = Some k →
  k ∈ keys ∧ is_Some (vals !! k).
Proof.
  intros Hf. apply find_some in Hf as [Hin Hk].
  split; [by apply list_elem_of_In | by apply has_key_true].
Qed.

Lemma find_committed_None (vals : gmap Z Z) (keys : list Z) :
  find (λ key, has_key key vals) keys = None ↔
  ∀ k, k ∈ keys → vals !! k = None.
Proof.
  split.
  - intros Hf k Hin. apply has_key_false.
    apply (find_none _ _ Hf). by apply list_elem_of_In.
  - intros Hall. destruct (find _ _) as [k|] eqn:E; [|done].
    apply find_committed_Some in E as [Hin [v Hv]].
    rewrite (Hall k Hin) in Hv. discriminate.
Qed.

(** [insert] returns exactly when no key of the batch is committed. *)
Lemma insert_returns (values : items) (c : Column.t) :
  returns (Column.insert values) c = true ↔
  ∀ k, k ∈ values.*1 → Column._vals c !! k = None.
Proof.
  unfold returns. rewrite insert_eq, <- find_committed_None.
  by destruct (find _ _).
Qed.

(** ** Column.delete *)

(** The guarded [pop]s of [delete] never raise, so [delete] always returns. *)
Lemma delete_eq (keys : list Z) (c : Column.t) :
  Column.delete keys c =
  (inr tt,
   if Column.transaction_marker c
   then foldl stage_delete c keys
   else foldl direct_delete c keys).
Proof.
  unfold Column.delete, bind at 1, get at 1.
  destruct (Column.transaction_marker c).
  - apply for_each_fold. intros key c'. unfold stage_delete, bind, get.
    destruct (has_key key (Column.trans_dict c')) eqn:E1.
    + unfold Column.pop_from, pop, bind, get. by rewrite E1.
    + by destruct (has_key key (Column._vals c')).
  - apply for_each_fold. intros key c'. unfold direct_delete, bind, get.
    destruct (has_key key (Column._vals c')) eqn:E1; [|done].
    unfold Column.pop_from, pop, bind, get. by rewrite E1.
Qed.

(** Inside a transaction a [delete] touches the two buffers only. *)
Lemma stage_delete_frame (keys : list Z) : ∀ c,
  Column.name (foldl stage_delete c keys) = Column.name c ∧
  Column._vals (foldl stage_delete c keys) = Column._vals c ∧
  Column.transaction_marker (foldl stage_delete c keys) =
    Column.transaction_marker c.
Proof.
  induction keys as [|key keys IH]; intros c; [done|].
  simpl. destruct (IH (stage_delete c key)) as (-> & -> & ->).
  unfold stage_delete.
  by destruct (has_key key (Column.trans_dict c)), (has_key key (Column._vals c)).
Qed.

Lemma stage_delete_trans_dict (keys : list Z) : ∀ c k,
  Column.trans_dict (foldl stage_delete c keys) !! k =
  if bool_decide (k ∈ keys) then None else Column.trans_dict c !! k.
Proof.
  induction keys as [|key keys IH]; intros c k.
  - cbn [foldl]. rewrite bool_decide_eq_false_2; [done|]. apply not_elem_of_nil.
  - cbn [foldl]. rewrite IH. destruct (bool_decide (k ∈ keys)) eqn:Ein.
    + apply bool_decide_eq_true in Ein.
      rewrite bool_decide_eq_true_2; [done|]. by right.
    + apply bool_decide_eq_false in Ein.
      assert (Hstep : Column.trans_dict (stage_delete c key) !! k =
                      if bool_decide (k = key) then None
                      else Column.trans_dict c !! k).
      { unfold stage_delete.
        destruct (has_key key (Column.trans_dict c)) eqn:E1; simpl.
        - case_bool_decide; subst.
          + apply lookup_delete_eq.
          + by apply lookup_delete_ne.
        - apply has_key_false in E1.
          case_bool_decide; subst;
            by destruct (has_key _ (Column._vals c)). }
      rewrite Hstep. destruct (decide (k = key)) as [->|Hne].
      * rewrite (bool_decide_eq_true_2 (key = key)) by done.
        rewrite bool_decide_eq_true_2; [done | by left].
      * rewrite (bool_decide_eq_false_2 (k = key)) by done.
        rewrite bool_decide_eq_false_2; [done|].
        intros [?|?]%elem_of_cons; done.
Qed.

(** The deletes staged by a [delete] are appended to the ones staged before;
    each is a committed key of the call. *)
Lemma stage_delete_to_del (keys : list Z) : ∀ c,
  ∃ new, Column.to_del (foldl stage_delete c keys) = Column.to_del c ++ new ∧
         ∀ k, k ∈ new → k ∈ keys ∧ is_Some (Column._vals c !! k).
Proof.
  induction keys as [|key keys IH]; intros c.
  - exists []. simpl. rewrite app_nil_r. split; [done|]. intros k Hk.
    by apply elem_of_nil in Hk.
  - simpl. destruct (IH (stage_delete c key)) as (new & Heq & Hnew).
    rewrite Heq. unfold stage_delete in *.
    destruct (has_key key (Column.trans_dict c)) eqn:E1; simpl in *.
    + exists new. split; [done|]. intros k Hk.
      destruct (Hnew k Hk). split; [by right|done].
    + destruct (has_key key (Column._vals c)) eqn:E2; simpl in *.
      * exists (key :: new). split; [by rewrite <- app_assoc|].
        intros k [->|Hk]%elem_of_cons.
        -- split; [by left | by apply has_key_true].
        -- destruct (Hnew k Hk). split; [by right|done].
      * exists new. split; [done|]. intros k Hk.
        destruct (Hnew k Hk). split; [by right|done].
Qed.

(** A committed key of the call that is not staged as an insert is staged
    as a delete. *)
Lemma stage_delete_stages (keys : list Z) : ∀ c k,
  k ∈ keys → Column.trans_dict c !! k = None → is_Some (Column._vals c !! k) →
  k ∈ Column.to_del (foldl stage_delete c keys).
Proof.
  induction keys as [|key keys IH]; intros c k Hin Ht Hv.
  - by apply elem_of_nil in Hin.
  - simpl. destruct (decide (k = key)) as [->|Hne].
    + destruct (stage_delete_to_del keys (stage_delete c key)) as (new & -> & _).
      apply elem_of_app. left. unfold stage_delete.
      apply has_key_false in Ht. apply has_key_true in Hv. rewrite Ht, Hv.
      simpl. apply elem_of_app. right. by left.
    + apply elem_of_cons in Hin as [?|Hin]; [done|].
      apply IH; [done| |].
      * pose proof (stage_delete_trans_dict [key] c k) as Hl. simpl in Hl.
        rewrite Hl. case_bool_decide; [done|exact Ht].
      * destruct (stage_delete_frame [key] c) as (_ & Hvals & _).
        simpl in Hvals. by rewrite Hvals.
Qed.

(** ** Column.commit *)

Lemma set_vals_id (c : Column.t) : Column.set_vals (Column._vals c) c = c.
Proof. by destruct c. Qed.

Lemma commit_loop (keys : list Z) : ∀ c,
  for_each keys (Column.pop_from Column._vals Column.set_vals) c =
  ((pop_keys keys (Column._vals c)).1,
   Column.set_vals (pop_keys keys (Column._vals c)).2 c).
Proof.
  induction keys as [|key keys IH]; intros c.
  - simpl. by rewrite set_vals_id.
  - rewrite for_each_cons. simpl.
    unfold Column.pop_from at 1, bind at 1, get at 1.
    destruct (pop key (Column._vals c)) as [e|d'] eqn:E.
    + simpl. by rewrite set_vals_id.
    + unfold put. rewrite IH. by destruct c.
Qed.

Lemma commit_eq (c : Column.t) :
  Column.commit c =
  match pop_keys (Column.to_del c)
                 (update (Column._vals c) (Column.trans_dict c)) with
  | (inr _, d) => (inr tt, Column.mk (Column.name c) d false ∅ [])
  | (inl e, d) =>
      (inl e, Column.mk (Column.name c) d (Column.transaction_marker c)
                        (Column.trans_dict c) (Column.to_del c))
  end.
Proof.
  unfold Column.commit. rewrite bind_get, bind_put, bind_get.
  unfold bind at 1. rewrite commit_loop. simpl.
  by destruct (pop_keys _ _) as [[e|[]] d].
Qed.

(** [pop]s only remove. *)
Lemma pop_keys_subseteq (keys : list Z) : ∀ (d : gmap Z Z) k v,
  (pop_keys keys d).2 !! k = Some v → d !! k = Some v.
Proof.
  induction keys as [|key keys IH]; intros d k v; [done|].
  simpl. unfold pop. destruct (has_key key d); [|done].
  intros Hl. apply IH in Hl. by apply lookup_delete_Some in Hl as [_ ?].
Qed.

(** When the loop runs to its end, exactly the listed keys are gone. *)
Lemma pop_keys_inr (keys : list Z) : ∀ (d d' : gmap Z Z) u,
  pop_keys keys d = (inr u, d') →
  ∀ k, d' !! k = if bool_decide (k ∈ keys) then None else d !! k.
Proof.
  induction keys as [|key keys IH]; intros d d' u Hp k.
  - inversion Hp; subst. rewrite bool_decide_eq_false_2; [done|].
    apply not_elem_of_nil.
  - cbn [pop_keys] in Hp. unfold pop in Hp.
    destruct (has_key key d); [|done].
    rewrite (IH _ _ _ Hp k). destruct (decide (k = key)) as [->|Hne].
    + rewrite lookup_delete_eq. rewrite (bool_decide_eq_true_2 (key ∈ key :: keys)).
      * by case_bool_decide.
      * by left.
    + rewrite lookup_delete_ne by done.
      destruct (bool_decide (k ∈ keys)) eqn:E.
      * apply bool_decide_eq_true in E.
        rewrite bool_decide_eq_true_2; [done | by right].
      * apply bool_decide_eq_false in E.
        rewrite bool_decide_eq_false_2; [done|].
        intros [?|?]%elem_of_cons; done.
Qed.

(** The loop runs to its end exactly when the list names present keys,
    each once. *)
Lemma pop_keys_returns (keys : list Z) : ∀ (d : gmap Z Z),
  (∃ d', pop_keys keys d = (inr tt, d')) ↔
  NoDup keys ∧ ∀ k, k ∈ keys → is_Some (d !! k).
Proof.
  induction keys as [|key keys IH]; intros d.
  - split; [|by eexists]. intros _. split; [constructor|].
    intros k Hk. by apply elem_of_nil in Hk.
  - cbn [pop_keys]. unfold pop. destruct (has_key key d) eqn:E.
    + rewrite IH. apply has_key_true in E. split.
      * intros [Hnd Hall]. split.
        -- constructor; [|done]. intros Hin. destruct (Hall key Hin) as [v Hv].
           by rewrite lookup_delete_eq in Hv.
        -- intros k [->|Hk]%elem_of_cons; [done|].
           destruct (Hall k Hk) as [v Hv].
           apply lookup_delete_Some in Hv as [_ Hv]. by eexists.
      * intros [[Hni Hnd]%NoDup_cons Hall]. split; [done|].
        intros k Hk. destruct (Hall k) as [v Hv]; [by right|].
        exists v. apply lookup_delete_Some. split; [|done].
        intros ->. done.
    + apply has_key_false in E. split.
      * intros [d' Hd']. discriminate.
      * intros [_ Hall]. destruct (Hall key) as [v Hv]; [by left|].
        rewrite E in Hv. discriminate.
Qed.

(** [commit] where it returns: the merge, then the removals, then the reset. *)
Lemma commit_returns (c : Column.t) :
  NoDup (Column.to_del c) →
  (∀ k, k ∈ Column.to_del c →
        is_Some (update (Column._vals c) (Column.trans_dict c) !! k)) →
  ∃ vals, Column.commit c = (inr tt, Column.mk (Column.name c) vals false ∅ []) ∧
    ∀ k, vals !! k =
         if bool_decide (k ∈ Column.to_del c) then None
         else update (Column._vals c) (Column.trans_dict c) !! k.
Proof.
  intros Hnd Hall.
  destruct (proj2 (pop_keys_returns (Column.to_del c)
              (update (Column._vals c) (Column.trans_dict c))))
    as [vals Hvals]; [done|].
  exists vals. rewrite commit_eq, Hvals. split; [done|].
  by apply (pop_keys_inr _ _ _ _ Hvals).
Qed.

(** Whatever [commit] does, it adds nothing beyond the staged inserts. *)
Lemma commit_vals_subseteq (c : Column.t) k v :
  Column._vals (exec Column.commit c) !! k = Some v →
  update (Column._vals c) (Column.trans_dict c) !! k = Some v.
Proof.
  unfold exec. rewrite commit_eq. intros Hl.
  apply (pop_keys_subseteq (Column.to_del c)).
  by destruct (pop_keys _ _) as [[e|u] d].
Qed.

(** ** Calls and sessions *)

Lemma mean_eq (c : Column.t) :
  Column.mean c = (inr (pd_mean (map_to_list (Column._vals c)).*2), c).
Proof. reflexivity. Qed.

Lemma getitem_exec (key : Z) (c : Column.t) :
  exec (Column.__getitem__ key) c = c.
Proof.
  unfold exec, Column.__getitem__, bind, get.
  by destruct (Column._vals c !! key).
Qed.

Lemma rollback_eq (c : Column.t) :
  Column.rollback c =
  (inr tt, Column.mk (Column.name c) (Column._vals c) false ∅ []).
Proof. reflexivity. Qed.

Lemma direct_delete_frame (keys : list Z) : ∀ c,
  Column.name (foldl direct_delete c keys) = Column.name c ∧
  Column.transaction_marker (foldl direct_delete c keys) =
    Column.transaction_marker c ∧
  Column.trans_dict (foldl direct_delete c keys) = Column.trans_dict c ∧
  Column.to_del (foldl direct_delete c keys) = Column.to_del c.
Proof.
  induction keys as [|key keys IH]; intros c; [done|].
  simpl. destruct (IH (direct_delete c key)) as (-> & -> & -> & ->).
  unfold direct_delete. by destruct (has_key key (Column._vals c)).
Qed.

(** No call renames the column. *)
Lemma call_name (o : Column.op) (c : Column.t) :
  Column.name (exec (Column.call o) c) = Column.name c.
Proof.
  destruct o as [values|keys| |key| | |]; unfold exec; simpl.
  - rewrite insert_eq. destruct (find _ _); [done|].
    by destruct (Column.transaction_marker c).
  - rewrite delete_eq. simpl. destruct (Column.transaction_marker c).
    + apply stage_delete_frame.
    + apply direct_delete_frame.
  - done.
  - unfold bind. fold (exec (Column.__getitem__ key) c).
    pose proof (getitem_exec key c) as Hg. unfold exec in Hg.
    destruct (Column.__getitem__ key c) as [[e|v] c']; simpl in *; by subst.
  - done.
  - done.
  - rewrite commit_eq. by destruct (pop_keys _ _) as [[e|u] d].
Qed.

(** Inside a transaction, a call other than [commit] and [rollback] leaves
    the committed dictionary and the marker as they are. *)
Lemma staging_call_frame (o : Column.op) (c : Column.t) :
  Column.transaction_marker c = true → Column.staging o = true →
  Column._vals (exec (Column.call o) c) = Column._vals c ∧
  Column.transaction_marker (exec (Column.call o) c) = true.
Proof.
  intros Hm Hs. destruct o as [values|keys| |key| | |]; try discriminate;
    unfold exec; simpl.
  - rewrite insert_eq, Hm. by destruct (find _ _).
  - rewrite delete_eq, Hm. simpl.
    destruct (stage_delete_frame keys c) as (_ & -> & ->). done.
  - done.
  - unfold bind. pose proof (getitem_exec key c) as Hg. unfold exec in Hg.
    destruct (Column.__getitem__ key c) as [[e|v] c']; simpl in *; by subst.
  - done.
Qed.

Lemma staging_run_frame (ops : list Column.op) : ∀ c,
  Column.transaction_marker c = true → forallb Column.staging ops = true →
  Column.name (Column.run ops c) = Column.name c ∧
  Column._vals (Column.run ops c) = Column._vals c ∧
  Column.transaction_marker (Column.run ops c) = true.
Proof.
  induction ops as [|o ops IH]; intros c Hm Hs; [done|].
  simpl in Hs. apply andb_true_iff in Hs as [Ho Hs].
  destruct (staging_call_frame o c Hm Ho) as [Hv Hm'].
  unfold Column.run in *. simpl.
  destruct (IH (exec (Column.call o) c) Hm' Hs) as (-> & -> & ->).
  by rewrite call_name, Hv.
Qed.

Lemma insert_or_delete_staging (ops : list Column.op) :
  forallb Column.insert_or_delete ops = true →
  forallb Column.staging ops = true.
Proof.
  rewrite !forallb_forall. intros H o Ho. specialize (H o Ho).
  by destruct o.
Qed.

(** ** The invariant of the staging buffers *)

Lemma call_staged_empty (o : Column.op) (c : Column.t) :
  Column.staged_empty c → Column.staged_empty (exec (Column.call o) c).
Proof.
  unfold Column.staged_empty. intros Hinv.
  destruct o as [values|keys| |key| | |]; unfold exec; simpl.
  - rewrite insert_eq. destruct (find _ _); [done|].
    destruct (Column.transaction_marker c) eqn:Hm; simpl; [by rewrite Hm|].
    intros _. by apply Hinv.
  - rewrite delete_eq. simpl.
    destruct (Column.transaction_marker c) eqn:Hm.
    + destruct (stage_delete_frame keys c) as (_ & _ & ->). by rewrite Hm.
    + destruct (direct_delete_frame keys c) as (_ & _ & -> & ->).
      intros _. by apply Hinv.
  - done.
  - unfold bind. pose proof (getitem_exec key c) as Hg. unfold exec in Hg.
    destruct (Column.__getitem__ key c) as [[e|v] c']; simpl in *; by subst.
  - done.
  - done.
  - rewrite commit_eq.
    destruct (Column.transaction_marker c) eqn:Hm.
    + by destruct (pop_keys _ _) as [[e|u] d].
    + destruct (Hinv eq_refl) as [_ ->]. done.
Qed.

Lemma run_staged_empty (ops : list Column.op) : ∀ c,
  Column.staged_empty c → Column.staged_empty (Column.run ops c).
Proof.
  induction ops as [|o ops IH]; intros c Hinv; [done|].
  apply IH. by apply call_staged_empty.
Qed.

(** ** Database: the layout of the namespace *)

Lemma init_lookup (l : list string) : ∀ (base : Database.t) a,
  foldl (λ self a, <[a := Database.Col (Column.__init__ a)]> self) base l !! a =
  if bool_decide (a ∈ l) then Some (Database.Col (Column.__init__ a))
  else base !! a.
Proof.
  induction l as [|x l IH]; intros base a.
  - cbn [foldl]. rewrite bool_decide_eq_false_2; [done|]. apply not_elem_of_nil.
  - cbn [foldl]. rewrite IH. destruct (bool_decide (a ∈ l)) eqn:E.
    + apply bool_decide_eq_true in E.
      rewrite bool_decide_eq_true_2; [done | by right].
    + apply bool_decide_eq_false in E. destruct (decide (a = x)) as [->|Hne].
      * rewrite lookup_insert_eq.
        rewrite bool_decide_eq_true_2; [done | by left].
      * rewrite lookup_insert_ne by done.
        rewrite bool_decide_eq_false_2; [done|].
        intros [?|?]%elem_of_cons; done.
Qed.

Lemma init_shape (tables : list string) :
  Database.shape tables (Database.__init__ tables).
Proof.
  unfold Database.__init__. split.
  - intros a Ha. exists (Column.__init__ a). rewrite init_lookup.
    by rewrite bool_decide_eq_true_2.
  - intros Hn. rewrite init_lookup, bool_decide_eq_false_2 by done.
    apply lookup_insert_eq.
  - intros Hn. exists ∅. rewrite init_lookup, bool_decide_eq_false_2 by done.
    rewrite lookup_insert_ne by done. rewrite lookup_insert_eq.
    split; [done|]. intros a b Hl. by rewrite lookup_empty in Hl.
  - intros a Ha H1 H2. rewrite init_lookup, bool_decide_eq_false_2 by done.
    rewrite !lookup_insert_ne by done. apply lookup_empty.
Qed.

(** Only table names hold columns. *)
Lemma shape_col_inv tables (db : Database.t) a c :
  Database.shape tables db → db !! a = Some (Database.Col c) → a ∈ tables.
Proof.
  intros Hs Ha. destruct (decide (a ∈ tables)) as [|Hn]; [done|exfalso].
  destruct (decide (a = "tables")) as [->|H1].
  { rewrite (Database.shape_tables _ _ Hs Hn) in Ha. discriminate. }
  destruct (decide (a = "_vars")) as [->|H2].
  { destruct (Database.shape_vars _ _ Hs Hn) as (d & Hd & _).
    rewrite Hd in Ha. discriminate. }
  rewrite (Database.shape_other _ _ Hs a Hn H1 H2) in Ha. discriminate.
Qed.

(** ** Database.__str__ *)

Lemma update_vars_eq (db : Database.t) d var c :
  db !! "_vars" = Some (Database.Vars d) →
  db !! var = Some (Database.Col c) →
  Database.update_vars var db =
  (inr tt, <["_vars" := Database.Vars (<[var := var]> d)]> db).
Proof.
  intros Hv Hc. unfold Database.update_vars, Database.getattr, Database.lookup.
  unfold bind, get. rewrite Hv. simpl. by rewrite Hc.
Qed.

Lemma str_loop (l : list string) : ∀ (db : Database.t) d,
  db !! "_vars" = Some (Database.Vars d) →
  (∀ var, var ∈ l → ∃ c, db !! var = Some (Database.Col c)) →
  for_each l Database.update_vars db =
  (inr tt, <["_vars" := Database.Vars (Database.refreshed d l)]> db).
Proof.
  induction l as [|var l IH]; intros db d Hv Hcols.
  - simpl. by rewrite insert_id.
  - rewrite for_each_cons.
    destruct (Hcols var) as [c Hc]; [by left|].
    rewrite (update_vars_eq db d var c Hv Hc).
    rewrite (IH _ (<[var := var]> d)).
    + by rewrite insert_insert_eq.
    + apply lookup_insert_eq.
    + intros var' Hin. destruct (Hcols var') as [c' Hc']; [by right|].
      exists c'. rewrite lookup_insert_ne; [done|]. intros <-.
      rewrite Hv in Hc'. discriminate.
Qed.

Lemma refreshed_lookup (l : list string) : ∀ (d : gmap string string) a,
  Database.refreshed d l !! a =
  if bool_decide (a ∈ l) then Some a else d !! a.
Proof.
  unfold Database.refreshed.
  induction l as [|x l IH]; intros d a.
  - cbn [foldl]. rewrite bool_decide_eq_false_2; [done|]. apply not_elem_of_nil.
  - cbn [foldl]. rewrite IH. destruct (bool_decide (a ∈ l)) eqn:E.
    + apply bool_decide_eq_true in E.
      rewrite bool_decide_eq_true_2; [done | by right].
    + apply bool_decide_eq_false in E. destruct (decide (a = x)) as [->|Hne].
      * rewrite lookup_insert_eq.
        rewrite bool_decide_eq_true_2; [done | by left].
      * rewrite lookup_insert_ne by done.
        rewrite bool_decide_eq_false_2; [done|].
        intros [?|?]%elem_of_cons; done.
Qed.

(** Printing a database none of whose columns is called [tables] or [_vars]:
    the loop rebinds [_vars], and the table is read off it. *)
Lemma str_plain tables (db : Database.t) d :
  Database.shape tables db → "tables" ∉ tables →
  db !! "_vars" = Some (Database.Vars d) →
  let db' := <["_vars" := Database.Vars (Database.refreshed d tables)]> db in
  Database.__str__ db =
  (inr (omap (Database.deref db') (Database.refreshed d tables)), db').
Proof.
  intros Hs Ht Hv db'. unfold Database.__str__.
  unfold bind at 1, bind at 1, Database.getattr at 1, bind at 1, get at 1.
  rewrite (Database.shape_tables _ _ Hs Ht). unfold ret at 1.
  rewrite (str_loop tables db d Hv).
  - subst db'. cbv beta iota delta [bind Database.getattr get].
    by rewrite lookup_insert_eq.
  - intros var Hin. destruct (Database.shape_col _ _ Hs var Hin) as (c & Hc & _).
    by exists c.
Qed.

(** A column called [_vars] has replaced the dictionary the loop updates. *)
Lemma str_vars_taken tables (db : Database.t) :
  Database.shape tables db → "tables" ∉ tables → "_vars" ∈ tables →
  Database.__str__ db = (inl (AttributeError "update"), db).
Proof.
  intros Hs Ht Hv. unfold Database.__str__.
  unfold bind at 1, bind at 1, Database.getattr at 1, bind at 1, get at 1.
  rewrite (Database.shape_tables _ _ Hs Ht). unfold ret at 1.
  destruct tables as [|x l]; [by apply elem_of_nil in Hv|].
  rewrite for_each_cons.
  destruct (Database.shape_col _ _ Hs "_vars" Hv) as (c & Hc & _).
  unfold Database.update_vars.
  cbv beta iota delta [bind Database.getattr get]. by rewrite Hc.
Qed.

(** A column called [tables] has replaced the list the loop iterates over. *)
Lemma str_tables_taken tables (db : Database.t) :
  Database.shape tables db → "tables" ∈ tables →
  ∃ e, Database.__str__ db = (inl e, db).
Proof.
  intros Hs Ht.
  destruct (Database.shape_col _ _ Hs "tables" Ht) as (c & Hc & _).
  unfold Database.__str__.
  unfold bind at 1, bind at 1, Database.getattr at 1, bind at 1, get at 1.
  rewrite Hc. unfold ret at 1.
  destruct (Column._vals c !! 0) as [v|]; [|by eexists].
  cbv beta iota delta [bind Database.getattr get].
  destruct (db !! "_vars") as [[d|l|c']|]; by eexists.
Qed.

(** In every case [__str__] writes nothing but the [_vars] dictionary. *)
Lemma str_frame tables (db : Database.t) :
  Database.shape tables db →
  exec Database.__str__ db = db ∨
  (("tables" ∉ tables) ∧ ("_vars" ∉ tables) ∧
   ∃ d, db !! "_vars" = Some (Database.Vars d) ∧
        exec Database.__str__ db =
        <["_vars" := Database.Vars (Database.refreshed d tables)]> db).
Proof.
  intros Hs. unfold exec.
  destruct (decide ("tables" ∈ tables)) as [Ht|Ht].
  { left. by destruct (str_tables_taken _ _ Hs Ht) as [e ->]. }
  destruct (decide ("_vars" ∈ tables)) as [Hv|Hv].
  { left. by rewrite (str_vars_taken _ _ Hs Ht Hv). }
  right. destruct (Database.shape_vars _ _ Hs Hv) as (d & Hd & _).
  do 2 (split; [done|]). exists d. split; [done|].
  by rewrite (str_plain _ _ d Hs Ht Hd).
Qed.

(** ** Database sessions keep the layout *)

Lemma step_shape tables (db : Database.t) (o : Database.op) :
  Database.shape tables db → Database.shape tables (Database.step db o).
Proof.
  intros Hs. destruct o as [a o|]; simpl.
  - destruct (db !! a) as [[d|l|c]|] eqn:E; try done.
    pose proof (shape_col_inv _ _ _ _ Hs E) as Ha.
    destruct (Database.shape_col _ _ Hs a Ha) as (c0 & Hc0 & Hname).
    assert (c0 = c) as -> by congruence.
    split.
    + intros b Hb. destruct (decide (b = a)) as [->|Hne].
      * eexists. rewrite lookup_insert_eq. split; [done|].
        by rewrite call_name.
      * rewrite lookup_insert_ne by done. by apply (Database.shape_col _ _ Hs).
    + intros Hn. rewrite lookup_insert_ne by (by intros ->).
      by apply (Database.shape_tables _ _ Hs).
    + intros Hn. rewrite lookup_insert_ne by (by intros ->).
      by apply (Database.shape_vars _ _ Hs).
    + intros b Hb H1 H2. rewrite lookup_insert_ne by (by intros ->).
      by apply (Database.shape_other _ _ Hs).
  - destruct (str_frame _ _ Hs) as [->|(Ht & Hv & d & Hd & ->)]; [done|].
    split.
    + intros b Hb. rewrite lookup_insert_ne by (by intros <-).
      by apply (Database.shape_col _ _ Hs).
    + intros _. rewrite lookup_insert_ne by done.
      by apply (Database.shape_tables _ _ Hs).
    + intros _. eexists. rewrite lookup_insert_eq. split; [done|].
      intros a b. rewrite refreshed_lookup. case_bool_decide as Hin.
      * intros [= <-]. done.
      * intros Hl. destruct (Database.shape_vars _ _ Hs Hv) as (d0 & Hd0 & Hin0).
        assert (d0 = d) as -> by congruence. by apply Hin0.
    + intros b Hb H1 H2. rewrite lookup_insert_ne by done.
      by apply (Database.shape_other _ _ Hs).
Qed.

Lemma run_shape tables (ops : list Database.op) : ∀ (db : Database.t),
  Database.shape tables db → Database.shape tables (Database.run ops db).
Proof.
  induction ops as [|o ops IH]; intros db Hs; [done|].
  apply IH. by apply step_shape.
Qed.

(** ** Calls that always return *)

(** [delete], [transaction] and [rollback] return on every state; [commit]
    returns exactly when [to_del] lists keys of the merged dictionary, each
    once. *)
Lemma delete_transaction_rollback_return (c : Column.t) (keys : list Z) :
  returns (Column.delete keys) c = true ∧
  returns Column.transaction c = true ∧
  returns Column.rollback c = true.
Proof. unfold returns. by rewrite delete_eq. Qed.

Lemma commit_returns_iff (c : Column.t) :
  returns Column.commit c = true ↔
  NoDup (Column.to_del c) ∧
  ∀ k, k ∈ Column.to_del c →
       is_Some (update (Column._vals c) (Column.trans_dict c) !! k).
Proof.
  rewrite <- pop_keys_returns. unfold returns. rewrite commit_eq.
  destruct (pop_keys _ _) as [[e|[]] d]; simpl.
  - split; [done|]. intros [d' Hd']. discriminate.
  - split; [|done]. intros _. by exists d.
Qed.

(** ** The walkthrough under [__main__] *)

(** The session of the source, call by call: the means it prints, the
    committed dictionary after the commit, and the final rejected insert. *)
Example walkthrough :
  let c1 := Column.run [Column.Transaction;
                        Column.Insert [(40, 19); (50, 21)];
                        Column.Delete [10]] demo in
  let c2 := exec Column.rollback c1 in
  let c3 := Column.run [Column.Transaction;
                        Column.Insert [(40, 0); (50, 2)];
                        Column.Delete [20; 30]] c2 in
  let c4 := exec Column.commit c3 in
  (Column.mean demo).1 = inr (Some 10%Q) ∧
  (Column.__getitem__ 20 demo).1 = inr 11 ∧
  (Column.mean c1).1 = inr (Some 10%Q) ∧
  (Column.mean c2).1 = inr (Some 10%Q) ∧
  c2 = demo ∧
  (Column.mean c3).1 = inr (Some 10%Q) ∧
  (Column.commit c3).1 = inr tt ∧
  Column._vals c4 = {[10 := 10; 40 := 0; 50 := 2]} ∧
  (Column.mean c4).1 = inr (Some 4%Q) ∧
  Column.insert [(10, 20)] c4 =
    (inl (OverwriteNotAllowed
            "Overwrite not allowed. Key = 10 already assigned."), c4).
Proof. vm_compute. repeat split; reflexivity. Qed.

(** * The claims *)

(** C1: for every Column state and every insert batch, if some key of the
    batch is already committed, [insert] raises [OverwriteNotAllowed] with a
    message naming such a key of the batch, and the whole Column state (the
    committed dictionary, both staging buffers, the transaction flag) is
    left as it was: every key is validated before anything is written. *)
Theorem insert_committed_key_rejected (c : Column.t) (values : items) :
  (∃ k, k ∈ values.*1 ∧ is_Some (Column._vals c !! k)) →
  ∃ k, k ∈ values.*1 ∧ is_Some (Column._vals c !! k) ∧
       Column.insert values c =
       (inl (OverwriteNotAllowed (Column.overwrite_msg k)), c).
Proof.
  intros (k0 & Hin0 & Hk0). rewrite insert_eq.
  destruct (find _ _) as [k|] eqn:E.
  - apply find_committed_Some in E as [Hin Hk]. by exists k.
  - rewrite find_committed_None in E. rewrite (E k0 Hin0) in Hk0.
    by destruct Hk0.
Qed.

Lemma insert_committed_key_rejected_witness :
  ∃ k, k ∈ [5; 10; 20] ∧ is_Some (Column._vals demo !! k) ∧
       Column.insert [(5, 1); (10, 20); (20, 1)] demo =
       (inl (OverwriteNotAllowed (Column.overwrite_msg k)), demo).
Proof.
  apply (insert_committed_key_rejected demo [(5, 1); (10, 20); (20, 1)]).
  exists 20. split.
  - apply list_elem_of_In. simpl. auto.
  - apply has_key_true. reflexivity.
Defined.

(** C2, at the state reached by deleting one committed key twice inside a
    transaction: [commit] does not complete.  It merges the staged insert,
    removes the key once, then raises [KeyError] on the second removal and
    leaves both staging buffers filled and the transaction open. *)
Theorem commit_leaves_buffers_on_repeated_delete :
  let c := Column.run [Column.Transaction; Column.Insert [(40, 0)];
                       Column.Delete [10]; Column.Delete [10]] demo in
  Column.transaction_marker c = true ∧
  Column.trans_dict c !! 40 = Some 0 ∧
  Column.to_del c = [10; 10] ∧
  (Column.commit c).1 = inl (KeyError (KInt 10)) ∧
  Column._vals (exec Column.commit c) !! 40 = Some 0 ∧
  Column._vals (exec Column.commit c) !! 10 = None ∧
  Column.trans_dict (exec Column.commit c) !! 40 = Some 0 ∧
  Column.to_del (exec Column.commit c) = [10; 10] ∧
  Column.transaction_marker (exec Column.commit c) = true.
Proof. vm_compute. repeat split; reflexivity. Qed.

(** C3: for every Column, after [transaction()] followed by any sequence of
    inserts and deletes (each of which may succeed or be rejected),
    [rollback()] returns and leaves the committed dictionary equal to its
    value before the transaction, both staging buffers empty and the
    transaction flag false. *)
Theorem rollback_restores (c : Column.t) (ops : list Column.op) :
  forallb Column.insert_or_delete ops = true →
  Column.rollback (Column.run ops (exec Column.transaction c)) =
  (inr tt, Column.mk (Column.name c) (Column._vals c) false ∅ []).
Proof.
  intros Hops. rewrite rollback_eq.
  destruct (staging_run_frame ops (exec Column.transaction c))
    as (-> & -> & _); [done | by apply insert_or_delete_staging | done].
Qed.

Lemma rollback_restores_witness :
  Column.rollback
    (Column.run [Column.Insert [(40, 19); (50, 21)]; Column.Delete [10]]
                (exec Column.transaction demo)) =
  (inr tt, Column.mk (Column.name demo) (Column._vals demo) false ∅ []).
Proof.
  apply (rollback_restores demo
           [Column.Insert [(40, 19); (50, 21)]; Column.Delete [10]]).
  reflexivity.
Defined.

(** C4: [mean()] is a function of the committed dictionary only.  For every
    Column and every sequence of calls issued after [transaction()] that
    does not commit or roll back, [mean()] returns what it returned just
    before the transaction began; two Columns with the same committed
    dictionary have the same mean; and on a non-empty committed dictionary
    the result is a number. *)
Theorem mean_ignores_staged (c : Column.t) (ops : list Column.op) :
  forallb Column.staging ops = true →
  (Column.mean (Column.run ops (exec Column.transaction c))).1 =
    (Column.mean c).1 ∧
  (∀ c', Column._vals c' = Column._vals c →
         (Column.mean c').1 = (Column.mean c).1) ∧
  (Column._vals c ≠ ∅ → ∃ q, (Column.mean c).1 = inr (Some q)).
Proof.
  intros Hops. split; [|split].
  - rewrite !mean_eq. simpl.
    destruct (staging_run_frame ops (exec Column.transaction c))
      as (_ & -> & _); done.
  - intros c' Hc'. rewrite !mean_eq. simpl. by rewrite Hc'.
  - intros Hne. rewrite mean_eq. simpl.
    destruct (map_to_list (Column._vals c)) as [|kv l] eqn:E.
    + by apply map_to_list_empty_iff in E.
    + simpl. by eexists.
Qed.

Lemma mean_ignores_staged_witness :
  (Column.mean
     (Column.run [Column.Insert [(40, 19); (50, 21)]; Column.Delete [10]]
                 (exec Column.transaction demo))).1 = (Column.mean demo).1 ∧
  (∀ c', Column._vals c' = Column._vals demo →
         (Column.mean c').1 = (Column.mean demo).1) ∧
  (Column._vals demo ≠ ∅ → ∃ q, (Column.mean demo).1 = inr (Some q)).
Proof.
  apply (mean_ignores_staged demo
           [Column.Insert [(40, 19); (50, 21)]; Column.Delete [10]]).
  reflexivity.
Defined.

(** C5, at the session that deletes the committed key 10 twice inside one
    transaction: the following [commit()] raises [KeyError], because the key
    is listed twice in [to_del] and the second [pop] finds it gone. *)
Theorem commit_raises_after_repeated_delete :
  (Column.commit
     (Column.run [Column.Transaction; Column.Delete [10]; Column.Delete [10]]
                 demo)).1 = inl (KeyError (KInt 10)) ∧
  (Column.commit
     (Column.run [Column.Transaction; Column.Delete [10; 10]] demo)).1 =
    inl (KeyError (KInt 10)).
Proof. split; reflexivity. Qed.

(** C6: for every Column with an open transaction, [delete(keys)] returns
    without error and touches the staging buffers only.  Every key of the
    call is gone from the staged inserts, and the other staged inserts are
    kept; a key of the call that was not staged as an insert and is
    committed is in the staged deletes; nothing is added to the staged
    deletes but committed keys of the call, so a key absent from both
    dictionaries is ignored.  Hence a key staged by an accepted insert and
    deleted afterwards in the same transaction is not committed after the
    commit. *)
Theorem delete_in_transaction (c : Column.t) (keys : list Z) :
  Column.transaction_marker c = true →
  ∃ c', Column.delete keys c = (inr tt, c') ∧
    Column.name c' = Column.name c ∧
    Column._vals c' = Column._vals c ∧
    Column.transaction_marker c' = true ∧
    (∀ k, k ∈ keys → Column.trans_dict c' !! k = None) ∧
    (∀ k, k ∉ keys → Column.trans_dict c' !! k = Column.trans_dict c !! k) ∧
    (∀ k, k ∈ keys → Column.trans_dict c !! k = None →
          is_Some (Column._vals c !! k) → k ∈ Column.to_del c') ∧
    (∃ new, Column.to_del c' = Column.to_del c ++ new ∧
            ∀ k, k ∈ new → k ∈ keys ∧ is_Some (Column._vals c !! k)) ∧
    (∀ values k, k ∈ values.*1 → k ∈ keys →
       returns (Column.insert values) c = true →
       Column._vals
         (exec Column.commit
            (exec (Column.delete keys) (exec (Column.insert values) c)))
         !! k = None).
Proof.
  intros Hm. exists (foldl stage_delete c keys).
  split; [by rewrite delete_eq, Hm|].
  destruct (stage_delete_frame keys c) as (Hn & Hv & Ht).
  do 3 (split; [congruence|]).
  split; [|split; [|split; [|split]]].
  - intros k Hk. rewrite stage_delete_trans_dict.
    by rewrite bool_decide_eq_true_2.
  - intros k Hk. rewrite stage_delete_trans_dict.
    by rewrite bool_decide_eq_false_2.
  - intros k. apply stage_delete_stages.
  - apply stage_delete_to_del.
  - intros values k Hkv Hkk Hret.
    pose proof (proj1 (insert_returns values c) Hret k Hkv) as Hfree.
    unfold exec at 2 3. rewrite insert_eq.
    rewrite (proj2 (find_committed_None _ _) (proj1 (insert_returns _ _) Hret)).
    rewrite Hm. simpl. rewrite delete_eq. simpl. rewrite Hm.
    match goal with |- Column._vals (exec _ ?s) !! _ = _ => set (c2 := s) end.
    destruct (Column._vals (exec Column.commit c2) !! k) as [v|] eqn:E; [|done].
    apply commit_vals_subseteq in E. rewrite update_lookup in E.
    subst c2. rewrite stage_delete_trans_dict in E.
    rewrite bool_decide_eq_true_2 in E by done.
    destruct (stage_delete_frame keys
      (Column.set_trans_dict (update_items (Column.trans_dict c) values) c))
      as (_ & Hv2 & _).
    rewrite Hv2 in E. simpl in E. congruence.
Qed.

Lemma delete_in_transaction_witness :
  ∃ c', Column.delete [40; 10; 7] staged = (inr tt, c') ∧
    Column.name c' = Column.name staged ∧
    Column._vals c' = Column._vals staged ∧
    Column.transaction_marker c' = true ∧
    (∀ k, k ∈ [40; 10; 7] → Column.trans_dict c' !! k = None) ∧
    (∀ k, k ∉ [40; 10; 7] →
          Column.trans_dict c' !! k = Column.trans_dict staged !! k) ∧
    (∀ k, k ∈ [40; 10; 7] → Column.trans_dict staged !! k = None →
          is_Some (Column._vals staged !! k) → k ∈ Column.to_del c') ∧
    (∃ new, Column.to_del c' = Column.to_del staged ++ new ∧
            ∀ k, k ∈ new →
                 k ∈ [40; 10; 7] ∧ is_Some (Column._vals staged !! k)) ∧
    (∀ values k, k ∈ values.*1 → k ∈ [40; 10; 7] →
       returns (Column.insert values) staged = true →
       Column._vals
         (exec Column.commit
            (exec (Column.delete [40; 10; 7])
                  (exec (Column.insert values) staged)))
         !! k = None).
Proof. apply (delete_in_transaction staged [40; 10; 7]). reflexivity. Defined.

(** C7: for every Column with an open transaction, inserting a batch none
    of whose keys is committed returns without error even when a key of the
    batch is already staged; the staged value of that key is replaced by the
    new one, the committed dictionary and the staged deletes are untouched,
    and staged keys outside the batch keep their values. *)
Theorem insert_restages (c : Column.t) (values : items) (k v : Z) :
  Column.transaction_marker c = true →
  is_Some (Column.trans_dict c !! k) →
  (∀ k', k' ∈ values.*1 → Column._vals c !! k' = None) →
  NoDup values.*1 →
  (k, v) ∈ values →
  ∃ c', Column.insert values c = (inr tt, c') ∧
    Column.trans_dict c' !! k = Some v ∧
    (∀ k', k' ∉ values.*1 →
           Column.trans_dict c' !! k' = Column.trans_dict c !! k') ∧
    Column.name c' = Column.name c ∧
    Column._vals c' = Column._vals c ∧
    Column.to_del c' = Column.to_del c ∧
    Column.transaction_marker c' = true.
Proof.
  intros Hm _ Hfree Hnd Hin. rewrite insert_eq.
  rewrite (proj2 (find_committed_None _ _) Hfree), Hm.
  eexists. split; [done|]. simpl. split; [|split; [|done]].
  - by apply update_items_in.
  - intros k' Hk'. by apply update_items_notin.
Qed.

Lemma insert_restages_witness :
  ∃ c', Column.insert [(40, 0); (60, 5)] staged = (inr tt, c') ∧
    Column.trans_dict c' !! 40 = Some 0 ∧
    (∀ k', k' ∉ [(40, 0); (60, 5)].*1 →
           Column.trans_dict c' !! k' = Column.trans_dict staged !! k') ∧
    Column.name c' = Column.name staged ∧
    Column._vals c' = Column._vals staged ∧
    Column.to_del c' = Column.to_del staged ∧
    Column.transaction_marker c' = true.
Proof.
  apply (insert_restages staged [(40, 0); (60, 5)] 40 0).
  - reflexivity.
  - apply has_key_true. reflexivity.
  - intros k' Hk'. apply has_key_false. apply list_elem_of_In in Hk'.
    simpl in Hk'. destruct Hk' as [<-|[<-|[]]]; reflexivity.
  - apply NoDup_ListNoDup. simpl. repeat constructor; simpl; intuition lia.
  - apply list_elem_of_In. simpl. auto.
Defined.

(** C8: in every state a Column reaches from its initial state by calls of
    its methods, both staging buffers are empty whenever the transaction
    flag is false. *)
Theorem buffers_empty_outside_transaction (name : string)
    (ops : list Column.op) :
  Column.transaction_marker (Column.run ops (Column.__init__ name)) = false →
  Column.trans_dict (Column.run ops (Column.__init__ name)) = ∅ ∧
  Column.to_del (Column.run ops (Column.__init__ name)) = [].
Proof.
  apply (run_staged_empty ops (Column.__init__ name)). by intros _.
Qed.

Lemma buffers_empty_outside_transaction_witness :
  let ops := [Column.Insert [(10, 10); (20, 11); (30, 9)]; Column.Transaction;
              Column.Insert [(40, 19); (50, 21)]; Column.Delete [10; 10];
              Column.Commit; Column.Rollback; Column.Delete [20]] in
  Column.trans_dict (Column.run ops (Column.__init__ "temperature")) = ∅ ∧
  Column.to_del (Column.run ops (Column.__init__ "temperature")) = [].
Proof.
  apply (buffers_empty_outside_transaction "temperature"). reflexivity.
Defined.




(** C10, as stated, fails: [__str__] rebinds the entries of the Database's
    [_vars] dictionary, so the Database is not in the state it was in. *)
Lemma str_changes_vars :
  demo_db !! "_vars" = Some (Database.Vars ∅) ∧
  exec Database.__str__ demo_db !! "_vars" =
    Some (Database.Vars {["temperature" := "temperature";
                          "pressure" := "pressure"]}) ∧
  exec Database.__str__ demo_db ≠ demo_db.
Proof.
  split; [reflexivity|]. split; [reflexivity|].
  intros Heq. apply (f_equal (λ db : Database.t, db !! "_vars")) in Heq.
  vm_compute in Heq. discriminate Heq.
Qed.

(** C10, amended: for every Database, [__str__] leaves the name list and
    every owned Column as they are; the only entry of the Database it can
    write is its own [_vars] dictionary.  When it returns, the table it
    hands to the formatter has exactly the table names as columns, each
    holding the committed dictionary of that Column; it returns whenever no
    column is called [tables] or [_vars], and then [_vars] refers, under
    each table name, to the committed dictionary of that column. *)
Theorem str_writes_only_vars (tables : list string)
    (ops : list Database.op) :
  let db := Database.run ops (Database.__init__ tables) in
  let db' := exec Database.__str__ db in
  (∀ a, a ≠ "_vars" → db' !! a = db !! a) ∧
  (∀ a, a ∈ tables → db' !! a = db !! a) ∧
  (∀ df, (Database.__str__ db).1 = inr df →
     ∀ a, df !! a =
          if bool_decide (a ∈ tables) then Database.deref db a else None) ∧
  ("tables" ∉ tables → "_vars" ∉ tables →
     is_Some (db !! "_vars") ∧
     (∃ df, (Database.__str__ db).1 = inr df) ∧
     ∃ d, db' !! "_vars" = Some (Database.Vars d) ∧
          ∀ a, d !! a = if bool_decide (a ∈ tables) then Some a else None).
Proof.
  intros db db'.
  assert (Hs : Database.shape tables db) by apply run_shape, init_shape.
  destruct (decide ("tables" ∈ tables)) as [Ht|Ht].
  { destruct (str_tables_taken _ _ Hs Ht) as [e He].
    subst db'. unfold exec. rewrite He. simpl.
    split; [done|]. split; [done|]. split; [done|]. done. }
  destruct (decide ("_vars" ∈ tables)) as [Hv|Hv].
  { subst db'. unfold exec. rewrite (str_vars_taken _ _ Hs Ht Hv). simpl.
    split; [done|]. split; [done|]. split; [done|]. done. }
  destruct (Database.shape_vars _ _ Hs Hv) as (d & Hd & Hdom).
  pose proof (str_plain _ _ d Hs Ht Hd) as Hstr. simpl in Hstr.
  subst db'. unfold exec. rewrite Hstr. simpl.
  assert (Hd' : ∀ a, Database.refreshed d tables !! a =
                     if bool_decide (a ∈ tables) then Some a else None).
  { intros a. rewrite refreshed_lookup. case_bool_decide as Hin; [done|].
    destruct (d !! a) as [b|] eqn:E; [|done].
    by destruct (Hdom a b E). }
  split; [|split; [|split]].
  - intros a Ha. by rewrite lookup_insert_ne.
  - intros a Ha. rewrite lookup_insert_ne; [done|]. by intros <-.
  - intros df [= <-] a. rewrite lookup_omap, Hd'.
    case_bool_decide as Hin; [|done]. simpl.
    unfold Database.deref. rewrite lookup_insert_ne; [done|]. by intros <-.
  - intros _ _. split; [by rewrite Hd|]. split; [by eexists|].
    eexists. rewrite lookup_insert_eq. split; [done|]. exact Hd'.
Qed.

Lemma str_writes_only_vars_witness :
  exec Database.__str__ demo_db !! "tables" = demo_db !! "tables" ∧
  exec Database.__str__ demo_db !! "temperature" = demo_db !! "temperature" ∧
  ∃ df, (Database.__str__ demo_db).1 = inr df.
Proof.
  pose proof (str_writes_only_vars ["temperature"; "pressure"]
    [Database.OnColumn "temperature"
       (Column.Insert [(10, 10); (20, 11); (30, 9)])]) as (H1 & H2 & _ & H4).
  split; [|split].
  - by apply H1.
  - apply H2. apply list_elem_of_In. simpl. auto.
  - apply H4.
    + intros Hin%list_elem_of_In. simpl in Hin. by destruct Hin as [|[|[]]].
    + intros Hin%list_elem_of_In. simpl in Hin. by destruct Hin as [|[|[]]].
Defined.

(** * Further properties of the code *)

(** ** Reading and writing outside a transaction *)

Lemma direct_delete_vals (keys : list Z) : ∀ c k,
  Column._vals (foldl direct_delete c keys) !! k =
  if bool_decide (k ∈ keys) then None else Column._vals c !! k.
Proof.
  induction keys as [|key keys IH]; intros c k.
  - cbn [foldl]. rewrite bool_decide_eq_false_2; [done|]. apply not_elem_of_nil.
  - cbn [foldl]. rewrite IH. destruct (bool_decide (k ∈ keys)) eqn:Ein.
    + apply bool_decide_eq_true in Ein.
      rewrite bool_decide_eq_true_2; [done | by right].
    + apply bool_decide_eq_false in Ein. unfold direct_delete.
      destruct (decide (k = key)) as [->|Hne].
      * rewrite (bool_decide_eq_true_2 (key ∈ key :: keys)) by (by left).
        destruct (has_key key (Column._vals c)) eqn:E; simpl.
        -- apply lookup_delete_eq.
        -- by apply has_key_false.
      * rewrite (bool_decide_eq_false_2 (k ∈ key :: keys)).
        -- destruct (has_key key (Column._vals c)); simpl; [|done].
           by apply lookup_delete_ne.
        -- intros [?|?]%elem_of_cons; done.
Qed.

Lemma getitem_eq (key : Z) (c : Column.t) :
  Column.__getitem__ key c =
  (match Column._vals c !! key with
   | Some v => inr v
   | None => inl (KeyError (KInt key))
   end, c).
Proof.
  unfold Column.__getitem__, bind, get. by destruct (Column._vals c !! key).
Qed.

(** X1: outside a transaction, an insert of a batch none of whose keys is
    committed returns, and afterwards [col[k]] returns the inserted value
    for every item of the batch, while every other key reads as before and
    the staging buffers are untouched. *)
Theorem insert_then_getitem (c : Column.t) (values : items) :
  Column.transaction_marker c = false →
  (∀ k, k ∈ values.*1 → Column._vals c !! k = None) →
  NoDup values.*1 →
  ∃ c', Column.insert values c = (inr tt, c') ∧
    (∀ k v, (k, v) ∈ values → Column.__getitem__ k c' = (inr v, c')) ∧
    (∀ k, k ∉ values.*1 →
          (Column.__getitem__ k c').1 = (Column.__getitem__ k c).1) ∧
    Column.name c' = Column.name c ∧
    Column.transaction_marker c' = false ∧
    Column.trans_dict c' = Column.trans_dict c ∧
    Column.to_del c' = Column.to_del c.
Proof.
  intros Hm Hfree Hnd. rewrite insert_eq.
  rewrite (proj2 (find_committed_None _ _) Hfree), Hm.
  eexists. split; [done|]. split; [|split; [|done]].
  - intros k v Hin. rewrite getitem_eq. simpl.
    by rewrite (update_items_in values _ k v Hnd Hin).
  - intros k Hk. rewrite !getitem_eq. simpl.
    by rewrite update_items_notin.
Qed.

Lemma insert_then_getitem_witness :
  ∃ c', Column.insert [(40, 0); (50, 2)] demo = (inr tt, c') ∧
    (∀ k v, (k, v) ∈ [(40, 0); (50, 2)] →
            Column.__getitem__ k c' = (inr v, c')) ∧
    (∀ k, k ∉ [(40, 0); (50, 2)].*1 →
          (Column.__getitem__ k c').1 = (Column.__getitem__ k demo).1) ∧
    Column.name c' = Column.name demo ∧
    Column.transaction_marker c' = false ∧
    Column.trans_dict c' = Column.trans_dict demo ∧
    Column.to_del c' = Column.to_del demo.
Proof.
  apply (insert_then_getitem demo [(40, 0); (50, 2)]).
  - reflexivity.
  - intros k Hk. apply has_key_false. apply list_elem_of_In in Hk.
    simpl in Hk. destruct Hk as [<-|[<-|[]]]; reflexivity.
  - apply NoDup_ListNoDup. simpl. repeat constructor; simpl; intuition lia.
Defined.

(** X2: outside a transaction, [delete(keys)] always returns; afterwards
    [col[k]] raises [KeyError] for every key of the call, whether or not it
    was committed before, every other key keeps its value, and nothing but
    the committed dictionary is written. *)
Theorem delete_outside_transaction (c : Column.t) (keys : list Z) :
  Column.transaction_marker c = false →
  ∃ c', Column.delete keys c = (inr tt, c') ∧
    (∀ k, k ∈ keys →
          Column.__getitem__ k c' = (inl (KeyError (KInt k)), c')) ∧
    (∀ k, k ∉ keys → Column._vals c' !! k = Column._vals c !! k) ∧
    Column.name c' = Column.name c ∧
    Column.transaction_marker c' = false ∧
    Column.trans_dict c' = Column.trans_dict c ∧
    Column.to_del c' = Column.to_del c.
Proof.
  intros Hm. exists (foldl direct_delete c keys).
  split; [by rewrite delete_eq, Hm|].
  destruct (direct_delete_frame keys c) as (Hn & Ht & Hd & Hl).
  split; [|split; [|by rewrite Hn, Ht, Hd, Hl]].
  - intros k Hk. rewrite getitem_eq, direct_delete_vals.
    by rewrite bool_decide_eq_true_2.
  - intros k Hk. rewrite direct_delete_vals.
    by rewrite bool_decide_eq_false_2.
Qed.

Lemma delete_outside_transaction_witness :
  ∃ c', Column.delete [20; 7; 20] demo = (inr tt, c') ∧
    (∀ k, k ∈ [20; 7; 20] →
          Column.__getitem__ k c' = (inl (KeyError (KInt k)), c')) ∧
    (∀ k, k ∉ [20; 7; 20] → Column._vals c' !! k = Column._vals demo !! k) ∧
    Column.name c' = Column.name demo ∧
    Column.transaction_marker c' = false ∧
    Column.trans_dict c' = Column.trans_dict demo ∧
    Column.to_del c' = Column.to_del demo.
Proof. apply (delete_outside_transaction demo [20; 7; 20]). reflexivity. Defined.

(** X3: [col[key]] reads the committed dictionary only.  Whatever is staged
    after [transaction()] by calls other than [commit] and [rollback], a
    read returns or raises exactly as it did before the transaction; in
    particular a key staged by an accepted insert is not readable, and a
    key staged for deletion still is. *)
Theorem getitem_ignores_staged (c : Column.t) (ops : list Column.op)
    (key : Z) :
  forallb Column.staging ops = true →
  (Column.__getitem__ key (Column.run ops (exec Column.transaction c))).1 =
    (Column.__getitem__ key c).1 ∧
  (∀ values, key ∈ values.*1 →
     returns (Column.insert values) (exec Column.transaction c) = true →
     (Column.__getitem__ key
        (exec (Column.insert values) (exec Column.transaction c))).1 =
       inl (KeyError (KInt key))) ∧
  (∀ v, Column._vals c !! key = Some v →
     (Column.__getitem__ key
        (exec (Column.delete [key]) (exec Column.transaction c))).1 = inr v).
Proof.
  intros Hops. split; [|split].
  - rewrite !getitem_eq. simpl.
    destruct (staging_run_frame ops (exec Column.transaction c))
      as (_ & -> & _); done.
  - intros values Hin Hret.
    pose proof (proj1 (insert_returns _ _) Hret key Hin) as Hfree.
    destruct (staging_call_frame (Column.Insert values)
                (exec Column.transaction c)) as [Hv _]; [done|done|].
    simpl in Hv. rewrite getitem_eq. simpl. rewrite Hv. simpl in Hfree.
    by rewrite Hfree.
  - intros v Hv.
    destruct (staging_call_frame (Column.Delete [key])
                (exec Column.transaction c)) as [Hv' _]; [done|done|].
    simpl in Hv'. rewrite getitem_eq. simpl. rewrite Hv'. simpl.
    by rewrite Hv.
Qed.

Lemma getitem_ignores_staged_witness :
  (Column.__getitem__ 10
     (Column.run [Column.Insert [(40, 19); (50, 21)]; Column.Delete [10]]
                 (exec Column.transaction demo))).1 =
    (Column.__getitem__ 10 demo).1.
Proof.
  refine (proj1 (getitem_ignores_staged demo
           [Column.Insert [(40, 19); (50, 21)]; Column.Delete [10]] 10 _)).
  reflexivity.
Defined.

(** ** Commit: when it returns, and what a failure leaves *)

Lemma pop_keys_inl (keys : list Z) : ∀ (d d' : gmap Z Z) e,
  pop_keys keys d = (inl e, d') → ∃ k, e = KeyError (KInt k) ∧ k ∈ keys.
Proof.
  induction keys as [|key keys IH]; intros d d' e Hp; [done|].
  cbn [pop_keys] in Hp. unfold pop in Hp. destruct (has_key key d).
  - destruct (IH _ _ _ Hp) as (k & -> & Hk). exists k. split; [done | by right].
  - inversion Hp; subst. exists key. split; [done | by left].
Qed.

(** X4: [commit] returns exactly when [to_del] lists each of its keys once
    and every one of them is a key of the committed dictionary merged with
    the staged inserts.  When it returns, a key is committed afterwards iff
    it is not in [to_del] and was staged or committed, with the staged value
    taking precedence; both buffers are empty and the flag is false. *)
Theorem commit_returns_exactly_when (c : Column.t) :
  (returns Column.commit c = true ↔
     NoDup (Column.to_del c) ∧
     ∀ k, k ∈ Column.to_del c →
          is_Some (Column.trans_dict c !! k) ∨ is_Some (Column._vals c !! k)) ∧
  (returns Column.commit c = true →
     ∃ vals,
       Column.commit c = (inr tt, Column.mk (Column.name c) vals false ∅ []) ∧
       ∀ k, vals !! k =
            if bool_decide (k ∈ Column.to_del c) then None
            else match Column.trans_dict c !! k with
                 | Some v => Some v
                 | None => Column._vals c !! k
                 end).
Proof.
  assert (Hmerged : ∀ k,
    is_Some (update (Column._vals c) (Column.trans_dict c) !! k) ↔
    is_Some (Column.trans_dict c !! k) ∨ is_Some (Column._vals c !! k)).
  { intros k. rewrite update_lookup.
    destruct (Column.trans_dict c !! k) as [v|].
    - split; [by left | by eexists].
    - split; [by right|]. by intros [[? [=]]|?]. }
  split.
  - rewrite commit_returns_iff. split; intros [Hnd Hall]; (split; [done|]);
      intros k Hk; apply Hmerged; by apply Hall.
  - intros Hret. apply commit_returns_iff in Hret as [Hnd Hall].
    destruct (commit_returns c Hnd Hall) as (vals & Hc & Hl).
    exists vals. split; [done|]. intros k. rewrite Hl.
    by rewrite update_lookup.
Qed.

Lemma commit_returns_exactly_when_witness :
  let c := Column.run [Column.Transaction; Column.Insert [(40, 0); (50, 2)];
                       Column.Delete [20; 30]] demo in
  ∃ vals,
    Column.commit c = (inr tt, Column.mk (Column.name c) vals false ∅ []) ∧
    ∀ k, vals !! k =
         if bool_decide (k ∈ Column.to_del c) then None
         else match Column.trans_dict c !! k with
              | Some v => Some v
              | None => Column._vals c !! k
              end.
Proof.
  intros c. apply (proj2 (commit_returns_exactly_when c)). reflexivity.
Defined.

(** On any state, a [commit] that raises raises [KeyError] on a key of
    [to_del] and leaves the flag and both buffers as they were; a [commit]
    issued right after it raises again. *)
Lemma failed_commit_keeps_failing (c : Column.t) :
  returns Column.commit c = false →
  (∃ k, (Column.commit c).1 = inl (KeyError (KInt k)) ∧ k ∈ Column.to_del c) ∧
  Column.transaction_marker (exec Column.commit c) =
    Column.transaction_marker c ∧
  Column.trans_dict (exec Column.commit c) = Column.trans_dict c ∧
  Column.to_del (exec Column.commit c) = Column.to_del c ∧
  returns Column.commit (exec Column.commit c) = false.
Proof.
  intros Hret.
  assert (Hfail : ∃ e d,
    pop_keys (Column.to_del c)
             (update (Column._vals c) (Column.trans_dict c)) = (inl e, d)).
  { unfold returns in Hret. rewrite commit_eq in Hret.
    destruct (pop_keys _ _) as [[e|u] d]; [by eauto|done]. }
  destruct Hfail as (e & d & Hp).
  assert (Hexec : exec Column.commit c =
                  Column.mk (Column.name c) d (Column.transaction_marker c)
                            (Column.trans_dict c) (Column.to_del c)).
  { unfold exec. by rewrite commit_eq, Hp. }
  split; [|rewrite Hexec; simpl; do 3 (split; [done|])].
  - destruct (pop_keys_inl _ _ _ _ Hp) as (k & -> & Hk).
    exists k. by rewrite commit_eq, Hp.
  - destruct (returns Column.commit (Column.mk _ _ _ _ _)) eqn:E; [|done].
    apply commit_returns_iff in E as [Hnd Hall]. simpl in *.
    assert (Hret' : returns Column.commit c = true); [|congruence].
    apply commit_returns_iff. split; [done|].
    intros k Hk. destruct (Hall k Hk) as [v Hv]. exists v.
    rewrite update_lookup in Hv. rewrite update_lookup.
    destruct (Column.trans_dict c !! k) as [v'|] eqn:Et; [done|].
    pose proof (pop_keys_subseteq (Column.to_del c)
      (update (Column._vals c) (Column.trans_dict c)) k v) as Hsub.
    rewrite Hp in Hsub. simpl in Hsub. specialize (Hsub Hv).
    by rewrite update_lookup, Et in Hsub.
Qed.

Lemma call_staged_present (o : Column.op) (c : Column.t) :
  Column.staged_empty c → staged_present c →
  staged_present (exec (Column.call o) c).
Proof.
  unfold staged_present. intros Hinv Hk.
  destruct o as [values|keys| |key| | |]; unfold exec; simpl.
  - rewrite insert_eq. destruct (find _ _) eqn:E; [done|].
    destruct (Column.transaction_marker c) eqn:Hm; simpl; [done|].
    destruct (Hinv Hm) as [_ ->]. intros _ k Hin. by apply elem_of_nil in Hin.
  - rewrite delete_eq. simpl. destruct (Column.transaction_marker c) eqn:Hm.
    + destruct (stage_delete_frame keys c) as (_ & -> & _).
      destruct (stage_delete_to_del keys c) as (new & -> & Hnew).
      intros Hnd k [Hin|Hin]%elem_of_app.
      * apply Hk; [|done]. by apply NoDup_app in Hnd as [? _].
      * by apply Hnew.
    + destruct (direct_delete_frame keys c) as (_ & _ & _ & ->).
      destruct (Hinv Hm) as [_ ->]. intros _ k Hin. by apply elem_of_nil in Hin.
  - done.
  - unfold bind. pose proof (getitem_exec key c) as Hg. unfold exec in Hg.
    destruct (Column.__getitem__ key c) as [[e|v] c']; simpl in *; by subst.
  - done.
  - intros _ k Hin. by apply elem_of_nil in Hin.
  - rewrite commit_eq.
    destruct (pop_keys _ _) as [[e|u] d] eqn:Hp; simpl.
    + intros Hnd. exfalso.
      destruct (proj2 (pop_keys_returns (Column.to_del c)
        (update (Column._vals c) (Column.trans_dict c)))) as [d' Hd'].
      * split; [done|]. intros k Hin. destruct (Hk Hnd k Hin) as [v Hv].
        rewrite update_lookup. destruct (Column.trans_dict c !! k); by eexists.
      * rewrite Hd' in Hp. discriminate.
    + intros _ k Hin. by apply elem_of_nil in Hin.
Qed.

Lemma run_staged_present (ops : list Column.op) : ∀ c,
  Column.staged_empty c → staged_present c →
  Column.staged_empty (Column.run ops c) ∧ staged_present (Column.run ops c).
Proof.
  induction ops as [|o ops IH]; intros c Hinv Hk; [done|].
  apply IH; [by apply call_staged_empty | by apply call_staged_present].
Qed.

(** A repeated key in [to_del] makes every [commit] raise, and no call but
    [rollback] removes it or closes the transaction. *)
Lemma repeated_key_persists (ops : list Column.op) : ∀ c,
  Column.transaction_marker c = true → ¬ NoDup (Column.to_del c) →
  forallb not_rollback ops = true →
  Column.transaction_marker (Column.run ops c) = true ∧
  ¬ NoDup (Column.to_del (Column.run ops c)).
Proof.
  induction ops as [|o ops IH]; intros c Hm Hdup Hops; [done|].
  simpl in Hops. apply andb_true_iff in Hops as [Ho Hops].
  change (Column.run (o :: ops) c)
    with (Column.run ops (exec (Column.call o) c)).
  assert (Hstep : Column.transaction_marker (exec (Column.call o) c) = true ∧
                  ¬ NoDup (Column.to_del (exec (Column.call o) c))).
  { destruct o as [values|keys| |key| | |]; try discriminate;
      unfold exec; simpl.
    - rewrite insert_eq, Hm. by destruct (find _ _).
    - rewrite delete_eq, Hm. simpl.
      destruct (stage_delete_frame keys c) as (_ & _ & ->).
      destruct (stage_delete_to_del keys c) as (new & -> & _).
      split; [done|]. by intros [? _]%NoDup_app.
    - done.
    - unfold bind. pose proof (getitem_exec key c) as Hg. unfold exec in Hg.
      destruct (Column.__getitem__ key c) as [[e|v] c']; simpl in *; by subst.
    - done.
    - rewrite commit_eq.
      destruct (pop_keys _ _) as [[e|u] d] eqn:Hp; simpl; [done|].
      exfalso. apply Hdup.
      destruct u. by apply (proj1 (pop_keys_returns _ _) (ex_intro _ d Hp)). }
  destruct Hstep as [Hm' Hdup']. by apply IH.
Qed.

(** X5: in any state a Column reaches from its initial state, a [commit]
    that raises raises [KeyError] on a key of [to_del]; [to_del] then lists
    some key twice and the transaction is open.  From there on, whatever
    calls other than [rollback] are made (further commits included), the
    transaction stays open and [commit] still raises: only [rollback] ends
    such a transaction. *)
Theorem failed_commit_needs_rollback (name : string)
    (ops ops' : list Column.op) :
  let c := Column.run ops (Column.__init__ name) in
  returns Column.commit c = false →
  forallb not_rollback ops' = true →
  (∃ k, (Column.commit c).1 = inl (KeyError (KInt k)) ∧ k ∈ Column.to_del c) ∧
  ¬ NoDup (Column.to_del c) ∧
  Column.transaction_marker c = true ∧
  Column.transaction_marker (Column.run ops' c) = true ∧
  returns Column.commit (Column.run ops' c) = false.
Proof.
  intros c Hret Hops'.
  destruct (run_staged_present ops (Column.__init__ name)) as [Hinv Hk].
  { by intros _. }
  { intros _ k Hin. simpl in Hin. by apply elem_of_nil in Hin. }
  fold c in Hinv, Hk. clearbody c.
  assert (Hdup : ¬ NoDup (Column.to_del c)).
  { intros Hnd.
    assert (returns Column.commit c = true); [|congruence].
    apply commit_returns_iff. split; [done|]. intros k Hin.
    destruct (Hk Hnd k Hin) as [v Hv]. rewrite update_lookup.
    destruct (Column.trans_dict c !! k); by eexists. }
  assert (Hm : Column.transaction_marker c = true).
  { destruct (Column.transaction_marker c) eqn:Hm; [done|].
    destruct (Hinv Hm) as [_ Hd]. exfalso. apply Hdup. rewrite Hd.
    constructor. }
  split; [by apply failed_commit_keeps_failing|].
  do 2 (split; [done|]).
  destruct (repeated_key_persists ops' c Hm Hdup Hops') as [Hm' Hdup'].
  split; [done|].
  destruct (returns Column.commit (Column.run ops' c)) eqn:E; [|done].
  apply commit_returns_iff in E as [Hnd _]. by destruct Hdup'.
Qed.

Lemma failed_commit_needs_rollback_witness :
  let c := Column.run [Column.Insert [(10, 10); (20, 11); (30, 9)];
                       Column.Transaction; Column.Delete [10; 10]]
                      (Column.__init__ "temperature") in
  let ops' := [Column.Commit; Column.Delete [10]; Column.Insert [(10, 1)];
               Column.Transaction; Column.Commit] in
  (∃ k, (Column.commit c).1 = inl (KeyError (KInt k)) ∧ k ∈ Column.to_del c) ∧
  ¬ NoDup (Column.to_del c) ∧
  Column.transaction_marker c = true ∧
  Column.transaction_marker (Column.run ops' c) = true ∧
  returns Column.commit (Column.run ops' c) = false.
Proof.
  intros c ops'.
  apply (failed_commit_needs_rollback "temperature"
           [Column.Insert [(10, 10); (20, 11); (30, 9)];
            Column.Transaction; Column.Delete [10; 10]] ops');
    reflexivity.
Defined.

(** X6: in a state a Column reaches from its initial state with no
    transaction open, [commit()] and [rollback()] both return and change
    nothing at all. *)
Theorem idle_commit_rollback_noop (name : string) (ops : list Column.op) :
  let c := Column.run ops (Column.__init__ name) in
  Column.transaction_marker c = false →
  Column.commit c = (inr tt, c) ∧ Column.rollback c = (inr tt, c).
Proof.
  intros c Hm.
  destruct (run_staged_empty ops (Column.__init__ name)) as [Ht Hd];
    [by intros _ | exact Hm |].
  fold c in Ht, Hd. rewrite commit_eq, rollback_eq, Ht, Hd. simpl.
  unfold update. rewrite (left_id_L ∅ (∪)).
  destruct c as [n vals m t d]. simpl in *. by subst.
Qed.

Lemma idle_commit_rollback_noop_witness :
  Column.commit demo = (inr tt, demo) ∧ Column.rollback demo = (inr tt, demo).
Proof.
  apply (idle_commit_rollback_noop "temperature"
           [Column.Insert [(10, 10); (20, 11); (30, 9)]]).
  reflexivity.
Defined.

(** X7: there is one level of transaction.  Inside an open transaction a
    further [transaction()] changes nothing: a session with such a call
    reaches the same state as the session without it, so a later [commit]
    or [rollback] resolves everything staged since the first call. *)
Theorem nested_transaction_is_noop (c : Column.t)
    (ops1 ops2 : list Column.op) :
  Column.transaction_marker c = true →
  forallb Column.staging ops1 = true →
  Column.run (ops1 ++ Column.Transaction :: ops2) c =
  Column.run (ops1 ++ ops2) c.
Proof.
  intros Hm Hops. unfold Column.run. rewrite !foldl_app. cbn [foldl].
  f_equal.
  destruct (staging_run_frame ops1 c Hm Hops) as (_ & _ & Hm1).
  unfold Column.run in Hm1.
  destruct (foldl _ c ops1) as [n vals m t d]. simpl in Hm1. by subst.
Qed.

Lemma nested_transaction_is_noop_witness :
  Column.run ([Column.Insert [(40, 19)]] ++
              Column.Transaction :: [Column.Delete [10]; Column.Commit])
             (exec Column.transaction demo) =
  Column.run ([Column.Insert [(40, 19)]] ++ [Column.Delete [10]; Column.Commit])
             (exec Column.transaction demo).
Proof.
  apply (nested_transaction_is_noop (exec Column.transaction demo)
           [Column.Insert [(40, 19)]] [Column.Delete [10]; Column.Commit]);
    reflexivity.
Defined.

(** ** What insert reports and what it never does *)

Lemma find_first (f : Z → bool) (pre post : list Z) k :
  (∀ k', k' ∈ pre → f k' = false) → f k = true →
  find f (pre ++ k :: post) = Some k.
Proof.
  induction pre as [|x pre IH]; intros Hpre Hk; simpl.
  - by rewrite Hk.
  - rewrite (Hpre x) by (by left). apply IH; [|done].
    intros k' Hk'. apply Hpre. by right.
Qed.

(** X8: the key named by [OverwriteNotAllowed] is the first committed key in
    the iteration order of the batch: when the items before [(k, v)] have
    no committed key and [k] is committed, the message names [k], whatever
    follows it in the batch. *)
Theorem insert_reports_first_committed_key (c : Column.t)
    (pre post : items) (k v : Z) :
  (∀ k', k' ∈ pre.*1 → Column._vals c !! k' = None) →
  is_Some (Column._vals c !! k) →
  Column.insert (pre ++ (k, v) :: post) c =
  (inl (OverwriteNotAllowed (Column.overwrite_msg k)), c).
Proof.
  intros Hpre Hk. rewrite insert_eq, fmap_app, fmap_cons. simpl.
  rewrite (find_first _ pre.*1 post.*1 k); [done| |by apply has_key_true].
  intros k' Hk'. apply has_key_false. by apply Hpre.
Qed.

Lemma insert_reports_first_committed_key_witness :
  Column.insert ([(5, 1)] ++ (20, 0) :: [(10, 3)]) demo =
  (inl (OverwriteNotAllowed (Column.overwrite_msg 20)), demo).
Proof.
  apply (insert_reports_first_committed_key demo [(5, 1)] [(10, 3)] 20 0).
  - intros k' Hk'. apply has_key_false. apply list_elem_of_In in Hk'.
    simpl in Hk'. destruct Hk' as [<-|[]]. reflexivity.
  - apply has_key_true. reflexivity.
Defined.

Lemma call_staged_agree (o : Column.op) (c : Column.t) :
  Column.staged_empty c → staged_agree c →
  staged_agree (exec (Column.call o) c).
Proof.
  unfold staged_agree. intros Hinv Hag.
  destruct o as [values|keys| |key| | |]; unfold exec; simpl.
  - rewrite insert_eq. destruct (find _ _) eqn:E; [done|].
    rewrite find_committed_None in E.
    destruct (Column.transaction_marker c) eqn:Hm; simpl.
    + intros k v w Hv Hw. destruct (decide (k ∈ values.*1)) as [Hin|Hin].
      * rewrite (E k Hin) in Hw. discriminate.
      * rewrite update_items_notin in Hv by done. by apply (Hag k).
    + destruct (Hinv Hm) as [Ht _]. intros k v w Hv. rewrite Ht in Hv.
      by rewrite lookup_empty in Hv.
  - rewrite delete_eq. simpl. destruct (Column.transaction_marker c) eqn:Hm.
    + destruct (stage_delete_frame keys c) as (_ & Hv' & _).
      intros k v w Hv Hw. rewrite Hv' in Hw.
      rewrite stage_delete_trans_dict in Hv.
      case_bool_decide; [done|]. by apply (Hag k).
    + destruct (direct_delete_frame keys c) as (_ & _ & Ht' & _).
      destruct (Hinv Hm) as [Ht _]. intros k v w Hv.
      rewrite Ht', Ht in Hv. by rewrite lookup_empty in Hv.
  - done.
  - unfold bind. pose proof (getitem_exec key c) as Hg. unfold exec in Hg.
    destruct (Column.__getitem__ key c) as [[e|v] c']; simpl in *; by subst.
  - done.
  - intros k v w Hv. by rewrite lookup_empty in Hv.
  - rewrite commit_eq.
    destruct (pop_keys _ _) as [[e|u] d] eqn:Hp; simpl.
    + intros k v w Hv Hw.
      pose proof (pop_keys_subseteq (Column.to_del c)
        (update (Column._vals c) (Column.trans_dict c)) k w) as Hsub.
      rewrite Hp in Hsub. specialize (Hsub Hw).
      rewrite update_lookup, Hv in Hsub. congruence.
    + intros k v w Hv. by rewrite lookup_empty in Hv.
Qed.

Lemma run_invariants (ops : list Column.op) : ∀ c,
  Column.staged_empty c → staged_agree c →
  Column.staged_empty (Column.run ops c) ∧ staged_agree (Column.run ops c).
Proof.
  induction ops as [|o ops IH]; intros c Hinv Hag; [done|].
  apply IH; [by apply call_staged_empty | by apply call_staged_agree].
Qed.

(** X9: no call ever changes the value stored under a committed key.  In
    every state a Column reaches from its initial state, whatever call is
    made next (a [commit] included, whether it returns or raises), a key
    that is committed before and after the call has the same value: a call
    can add keys and remove keys, never overwrite one. *)
Theorem committed_value_never_overwritten (name : string)
    (ops : list Column.op) (o : Column.op) (k v w : Z) :
  let c := Column.run ops (Column.__init__ name) in
  Column._vals c !! k = Some v →
  Column._vals (exec (Column.call o) c) !! k = Some w →
  v = w.
Proof.
  intros c Hv Hw.
  destruct (run_invariants ops (Column.__init__ name)) as [Hinv Hag].
  { by intros _. }
  { intros k' v' w' Hk'. simpl in Hk'. by rewrite lookup_empty in Hk'. }
  fold c in Hinv, Hag. clearbody c.
  destruct o as [values|keys| |key| | |]; unfold exec in Hw; simpl in Hw.
  - rewrite insert_eq in Hw. destruct (find _ _) eqn:E; simpl in Hw;
      [congruence|].
    rewrite find_committed_None in E.
    destruct (Column.transaction_marker c); simpl in Hw; [congruence|].
    destruct (decide (k ∈ values.*1)) as [Hin|Hin].
    + rewrite (E k Hin) in Hv. discriminate.
    + rewrite update_items_notin in Hw by done. congruence.
  - rewrite delete_eq in Hw. simpl in Hw.
    destruct (Column.transaction_marker c).
    + destruct (stage_delete_frame keys c) as (_ & Hv' & _).
      rewrite Hv' in Hw. congruence.
    + rewrite direct_delete_vals in Hw. case_bool_decide; [done|congruence].
  - congruence.
  - unfold bind in Hw. pose proof (getitem_exec key c) as Hg. unfold exec in Hg.
    destruct (Column.__getitem__ key c) as [[e|x] c']; simpl in *; subst;
      congruence.
  - congruence.
  - congruence.
  - fold (exec Column.commit c) in Hw. apply commit_vals_subseteq in Hw.
    rewrite update_lookup in Hw.
    destruct (Column.trans_dict c !! k) as [v'|] eqn:Et; [|congruence].
    inversion Hw; subst. symmetry. by apply (Hag k).
Qed.

Lemma committed_value_never_overwritten_witness :
  let c := Column.run [Column.Insert [(10, 10); (20, 11); (30, 9)];
                       Column.Transaction; Column.Insert [(40, 0)];
                       Column.Delete [20]] (Column.__init__ "temperature") in
  Column._vals c !! 10 = Some 10 ∧
  Column._vals (exec (Column.call Column.Commit) c) !! 10 = Some 10 ∧
  (10 : Z) = 10.
Proof.
  intros c. split; [reflexivity|]. split; [reflexivity|].
  apply (committed_value_never_overwritten "temperature"
           [Column.Insert [(10, 10); (20, 11); (30, 9)]; Column.Transaction;
            Column.Insert [(40, 0)]; Column.Delete [20]] Column.Commit 10);
    reflexivity.
Defined.

(** ** A transaction and the same calls made directly *)

Lemma update_items_union (values : items) (d : gmap Z Z) :
  update (d) (update_items ∅ values) = update_items d values.
Proof.
  unfold update. induction values as [|[k v] values IH] using rev_ind.
  - simpl. by rewrite (left_id_L ∅ (∪)).
  - rewrite !update_items_snoc, <- insert_union_l. by rewrite IH.
Qed.

(** X10: on a Column with no transaction open and empty buffers,
    [transaction(); insert(values); commit()] leaves exactly the state that
    [insert(values)] alone leaves, whether the insert is accepted or
    rejected, and the [commit] returns. *)
Theorem transaction_insert_commit (c : Column.t) (values : items) :
  Column.transaction_marker c = false →
  Column.trans_dict c = ∅ →
  Column.to_del c = [] →
  Column.commit (exec (Column.insert values) (exec Column.transaction c)) =
  (inr tt, exec (Column.insert values) c).
Proof.
  intros Hm Ht Hd. unfold exec. rewrite !insert_eq. simpl.
  destruct c as [n vals m t d]. simpl in *. subst.
  destruct (find _ _); simpl; rewrite commit_eq; simpl.
  - unfold update. by rewrite (left_id_L ∅ (∪)).
  - by rewrite update_items_union.
Qed.

Lemma transaction_insert_commit_witness :
  Column.commit
    (exec (Column.insert [(40, 0); (50, 2)]) (exec Column.transaction demo)) =
  (inr tt, exec (Column.insert [(40, 0); (50, 2)]) demo).
Proof.
  apply (transaction_insert_commit demo [(40, 0); (50, 2)]); reflexivity.
Defined.

Lemma stage_delete_no_inserts (keys : list Z) : ∀ c,
  Column.trans_dict c = ∅ →
  foldl stage_delete c keys =
  Column.set_to_del
    (Column.to_del c ++ filter (λ k, is_Some (Column._vals c !! k)) keys) c.
Proof.
  induction keys as [|key keys IH]; intros c Ht.
  - simpl. rewrite app_nil_r. by destruct c.
  - cbn [foldl]. unfold stage_delete at 2.
    assert (has_key key (Column.trans_dict c) = false) as ->.
    { apply has_key_false. by rewrite Ht. }
    destruct (has_key key (Column._vals c)) eqn:E.
    + apply has_key_true in E. rewrite IH by done. simpl.
      rewrite filter_cons_True by done. by rewrite <- app_assoc.
    + apply has_key_false in E. rewrite IH by done.
      rewrite filter_cons_False; [done|]. rewrite E. by intros [? [=]].
Qed.

(** X11: on a Column with no transaction open and empty buffers, and for
    keys listed once each, [transaction(); delete(keys); commit()] returns
    and leaves exactly the state that [delete(keys)] alone leaves; keys that
    are not committed are skipped on both paths. *)
Theorem transaction_delete_commit (c : Column.t) (keys : list Z) :
  Column.transaction_marker c = false →
  Column.trans_dict c = ∅ →
  Column.to_del c = [] →
  NoDup keys →
  Column.commit (exec (Column.delete keys) (exec Column.transaction c)) =
  (inr tt, exec (Column.delete keys) c).
Proof.
  intros Hm Ht Hd Hnd. unfold exec. rewrite !delete_eq. simpl. rewrite Hm.
  rewrite stage_delete_no_inserts by done. simpl. rewrite Hd. simpl.
  set (staged_keys := filter (λ k, is_Some (Column._vals c !! k)) keys).
  destruct (commit_returns
    (Column.set_to_del staged_keys
       (Column.set_transaction_marker true c))) as (vals & Hc & Hl).
  - simpl. by apply NoDup_filter.
  - simpl. intros k [Hk _]%list_elem_of_filter. rewrite update_lookup, Ht.
    by rewrite lookup_empty.
  - rewrite Hc. f_equal. simpl in *.
    destruct (direct_delete_frame keys c) as (Hn' & Hm' & Ht' & Hd').
    assert (Hvals : vals = Column._vals (foldl direct_delete c keys)).
    { apply map_eq. intros k. rewrite Hl, direct_delete_vals.
      rewrite update_lookup, Ht, lookup_empty.
      destruct (decide (k ∈ keys)) as [Hin|Hin].
      - rewrite (bool_decide_eq_true_2 (k ∈ keys)) by done.
        case_bool_decide as Hs; [done|].
        destruct (Column._vals c !! k) as [v|] eqn:E; [|done].
        exfalso. apply Hs. apply list_elem_of_filter. split; [|done].
        rewrite E. by eexists.
      - rewrite (bool_decide_eq_false_2 (k ∈ keys)) by done.
        rewrite bool_decide_eq_false_2; [done|].
        by intros [_ ?]%list_elem_of_filter. }
    destruct (foldl direct_delete c keys) as [n' v' m' t' d'].
    simpl in *. congruence.
Qed.

Lemma transaction_delete_commit_witness :
  Column.commit
    (exec (Column.delete [20; 7; 30]) (exec Column.transaction demo)) =
  (inr tt, exec (Column.delete [20; 7; 30]) demo).
Proof.
  apply (transaction_delete_commit demo [20; 7; 30]); try reflexivity.
  apply NoDup_ListNoDup. simpl. repeat constructor; simpl; intuition lia.
Defined.

(** ** Database: columns are independent, printing is repeatable *)

Lemma run_column tables (b : string) (ops : list Database.op) :
  ∀ (db : Database.t) c,
  Database.shape tables db → db !! b = Some (Database.Col c) →
  Database.run ops db !! b =
  Some (Database.Col (Column.run (calls_on b ops) c)).
Proof.
  induction ops as [|o ops IH]; intros db c Hs Hb; [done|].
  pose proof (shape_col_inv _ _ _ _ Hs Hb) as Hin.
  pose proof (step_shape tables db o Hs) as Hs'.
  change (Database.run (o :: ops) db) with (Database.run ops (Database.step db o)).
  destruct o as [a o'|].
  - unfold calls_on. cbn [omap list_omap]. fold (calls_on b ops).
    destruct (decide (a = b)) as [->|Hne].
    + apply (IH _ _ Hs'). simpl. rewrite Hb. apply lookup_insert_eq.
    + apply (IH _ _ Hs'). simpl.
      destruct (db !! a) as [[d|l|ca]|]; try done.
      by rewrite lookup_insert_ne.
  - unfold calls_on. cbn [omap list_omap]. fold (calls_on b ops).
    apply (IH _ _ Hs'). simpl.
    destruct (str_frame _ _ Hs) as [->|(_ & Hv & d & _ & ->)]; [done|].
    rewrite lookup_insert_ne; [done|]. by intros <-.
Qed.

(** X12: transactions and data are per column.  After any database session
    (calls on any columns, printing in between), the Column under a table
    name is in exactly the state a standalone [Column] of that name reaches
    when it receives, in order, the calls addressed to it: calls on other
    columns and printing never touch it. *)
Theorem database_column_is_standalone (tables : list string)
    (ops : list Database.op) (b : string) :
  b ∈ tables →
  Database.run ops (Database.__init__ tables) !! b =
  Some (Database.Col (Column.run (calls_on b ops) (Column.__init__ b))).
Proof.
  intros Hb. apply (run_column tables); [apply init_shape|].
  destruct (Database.shape_col _ _ (init_shape tables) b Hb) as (c & Hc & _).
  unfold Database.__init__ in *. rewrite init_lookup in *.
  by rewrite bool_decide_eq_true_2.
Qed.

Lemma database_column_is_standalone_witness :
  let ops := [Database.OnColumn "temperature"
                (Column.Insert [(10, 10); (20, 11); (30, 9)]);
              Database.OnColumn "pressure" Column.Transaction;
              Database.Render;
              Database.OnColumn "pressure" (Column.Insert [(10, 1)]);
              Database.OnColumn "temperature" (Column.Delete [20])] in
  Database.run ops (Database.__init__ ["temperature"; "pressure"])
    !! "temperature" =
  Some (Database.Col
          (Column.run (calls_on "temperature" ops)
                      (Column.__init__ "temperature"))).
Proof.
  intros ops.
  apply (database_column_is_standalone ["temperature"; "pressure"] ops).
  apply list_elem_of_In. simpl. auto.
Defined.

Lemma refreshed_idemp (d : gmap string string) (l : list string) :
  Database.refreshed (Database.refreshed d l) l = Database.refreshed d l.
Proof.
  apply map_eq. intros a. rewrite !refreshed_lookup.
  by case_bool_decide.
Qed.

(** X13: printing is repeatable.  For every Database, printing it a second
    time right after the first gives the same outcome (the same table, or
    the same exception) and leaves the state the first printing left. *)
Theorem str_twice (tables : list string) (ops : list Database.op) :
  let db := Database.run ops (Database.__init__ tables) in
  Database.__str__ (exec Database.__str__ db) =
  ((Database.__str__ db).1, exec Database.__str__ db).
Proof.
  intros db.
  assert (Hs : Database.shape tables db) by apply run_shape, init_shape.
  clearbody db. unfold exec.
  destruct (decide ("tables" ∈ tables)) as [Ht|Ht].
  { destruct (str_tables_taken _ _ Hs Ht) as [e He]. rewrite !He. simpl.
    by rewrite He. }
  destruct (decide ("_vars" ∈ tables)) as [Hv|Hv].
  { rewrite !(str_vars_taken _ _ Hs Ht Hv). simpl.
    by rewrite (str_vars_taken _ _ Hs Ht Hv). }
  destruct (Database.shape_vars _ _ Hs Hv) as (d & Hd & _).
  pose proof (str_plain _ _ d Hs Ht Hd) as Hstr. simpl in Hstr.
  rewrite Hstr. simpl.
  pose proof (step_shape tables db Database.Render Hs) as Hs'.
  simpl in Hs'. unfold exec in Hs'. rewrite Hstr in Hs'. simpl in Hs'.
  pose proof (str_plain _ _ (Database.refreshed d tables) Hs' Ht) as Hstr'.
  simpl in Hstr'. rewrite Hstr' by apply lookup_insert_eq.
  by rewrite refreshed_idemp, insert_insert_eq.
Qed.

Lemma str_table tables (db : Database.t) :
  Database.shape tables db → "tables" ∉ tables → "_vars" ∉ tables →
  ∃ df, (Database.__str__ db).1 = inr df ∧
        ∀ a, df !! a =
             if bool_decide (a ∈ tables) then Database.deref db a else None.
Proof.
  intros Hs Ht Hv.
  destruct (Database.shape_vars _ _ Hs Hv) as (d & Hd & Hdom).
  pose proof (str_plain _ _ d Hs Ht Hd) as Hstr. simpl in Hstr.
  rewrite Hstr. simpl. eexists. split; [done|].
  intros a. rewrite lookup_omap, refreshed_lookup.
  case_bool_decide as Hin.
  - simpl. unfold Database.deref. rewrite lookup_insert_ne; [done|].
    by intros <-.
  - destruct (d !! a) as [b|] eqn:E; [|done]. by destruct (Hdom a b E).
Qed.

Lemma calls_on_map (a b : string) (cops : list Column.op) :
  calls_on b (map (Database.OnColumn a) cops) =
  if decide (a = b) then cops else [].
Proof.
  unfold calls_on. destruct (decide (a = b)) as [->|Hne];
    induction cops as [|o cops IH]; simpl; try done.
  - destruct (decide (b = b)); [|done]. f_equal. exact IH.
  - destruct (decide (a = b)); [done|]. exact IH.
Qed.

(** X14: printing shows committed data only.  In a Database none of whose
    columns is called [tables] or [_vars], opening a transaction on a column
    and staging any inserts and deletes on it does not change the table
    that printing produces. *)
Theorem str_ignores_staged (tables : list string) (ops : list Database.op)
    (a : string) (cops : list Column.op) :
  "tables" ∉ tables → "_vars" ∉ tables →
  forallb Column.staging cops = true →
  let db := Database.run ops (Database.__init__ tables) in
  let db' := Database.run
               (Database.OnColumn a Column.Transaction ::
                map (Database.OnColumn a) cops) db in
  (Database.__str__ db').1 = (Database.__str__ db).1 ∧
  ∃ df, (Database.__str__ db).1 = inr df.
Proof.
  intros Ht Hv Hops db db'.
  assert (Hs : Database.shape tables db) by apply run_shape, init_shape.
  assert (Hs' : Database.shape tables db') by by apply run_shape.
  destruct (str_table _ _ Hs Ht Hv) as (df & Hdf & Hl).
  destruct (str_table _ _ Hs' Ht Hv) as (df' & Hdf' & Hl').
  split; [|by eexists]. rewrite Hdf, Hdf'. f_equal. apply map_eq. intros x.
  rewrite Hl, Hl'. case_bool_decide as Hin; [|done].
  destruct (Database.shape_col _ _ Hs x Hin) as (c & Hc & _).
  unfold Database.deref. subst db'.
  rewrite (run_column tables x _ db c Hs Hc), Hc.
  cbn [calls_on omap list_omap]. fold (calls_on x (map (Database.OnColumn a) cops)).
  rewrite calls_on_map. destruct (decide (a = x)) as [->|Hne]; [|done].
  f_equal.
  change (Column.run (Column.Transaction :: cops) c)
    with (Column.run cops (exec Column.transaction c)).
  by destruct (staging_run_frame cops (exec Column.transaction c))
    as (_ & -> & _).
Qed.

Lemma str_ignores_staged_witness :
  (Database.__str__
     (Database.run
        (Database.OnColumn "temperature" Column.Transaction ::
         map (Database.OnColumn "temperature")
             [Column.Insert [(40, 19); (50, 21)]; Column.Delete [10]])
        demo_db)).1 = (Database.__str__ demo_db).1 ∧
  ∃ df, (Database.__str__ demo_db).1 = inr df.
Proof.
  apply (str_ignores_staged ["temperature"; "pressure"]
           [Database.OnColumn "temperature"
              (Column.Insert [(10, 10); (20, 11); (30, 9)])]
           "temperature"
           [Column.Insert [(40, 19); (50, 21)]; Column.Delete [10]]).
  - intros Hin%list_elem_of_In. simpl in Hin. by destruct Hin as [|[|[]]].
  - intros Hin%list_elem_of_In. simpl in Hin. by destruct Hin as [|[|[]]].
  - reflexivity.
Defined.

(** X15: printing a Database returns exactly when none of its columns is
    called [tables] or [_vars].  A column of either name has replaced the
    attribute [__str__] relies on: printing then raises, and leaves the
    Database exactly as it was. *)
Theorem str_returns_exactly_when (tables : list string)
    (ops : list Database.op) :
  let db := Database.run ops (Database.__init__ tables) in
  (returns Database.__str__ db = true ↔
     ("tables" ∉ tables) ∧ ("_vars" ∉ tables)) ∧
  (returns Database.__str__ db = false → exec Database.__str__ db = db).
Proof.
  intros db.
  assert (Hs : Database.shape tables db) by apply run_shape, init_shape.
  clearbody db. unfold returns, exec.
  destruct (decide ("tables" ∈ tables)) as [Ht|Ht].
  { destruct (str_tables_taken _ _ Hs Ht) as [e ->]. simpl.
    split; [|done]. split; [done|]. by intros [? _]. }
  destruct (decide ("_vars" ∈ tables)) as [Hv|Hv].
  { rewrite (str_vars_taken _ _ Hs Ht Hv). simpl.
    split; [|done]. split; [done|]. by intros [_ ?]. }
  destruct (str_table _ _ Hs Ht Hv) as (df & Hdf & _).
  rewrite Hdf. split; [done|]. done.
Qed.

Lemma str_returns_exactly_when_witness :
  returns Database.__str__ (Database.__init__ ["temperature"; "_vars"]) = false ∧
  exec Database.__str__ (Database.__init__ ["temperature"; "_vars"]) =
    Database.__init__ ["temperature"; "_vars"].
Proof.
  split; [reflexivity|].
  apply (proj2 (str_returns_exactly_when ["temperature"; "_vars"] [])).
  reflexivity.
Defined.
